(** * record_provenance.py: image digests and timestamp of an assessment run

    A shallow embedding of [src/record_provenance.py].  Python strings are
    lists of Unicode code points, exceptions are an explicit error type, the
    container runtime is a function from a command line to an exit status and
    captured output, and the digest dictionary is an insertion-ordered
    association list with Python's [d[k] = v] update. *)

From Stdlib Require Import ZArith NArith List Ascii String Lia Bool.
From stdpp Require Import base option list gmap.
Import ListNotations.

Local Open Scope N_scope.

(** ** Python strings *)

Module Py.

(** A [str] is a sequence of code points. *)
Abbreviation str := (list N).

(** An ASCII literal as a [str]. *)
Definition u (s : string) : str :=
  map N_of_ascii (list_ascii_of_string s).

(** Truth value of a string: [if s:] holds for the non-empty strings. *)
Definition truthy (s : str) : bool :=
  match s with
  | [] => false
  | _ :: _ => true
  end.

(** The code points [str.strip()] removes (CPython's Unicode whitespace). *)
Definition isspace (c : N) : bool :=
  ((9 <=? c) && (c <=? 13)) || ((28 <=? c) && (c <=? 32))
  || (c =? 133) || (c =? 160) || (c =? 5760)
  || ((8192 <=? c) && (c <=? 8202))
  || (c =? 8232) || (c =? 8233) || (c =? 8239) || (c =? 8287)
  || (c =? 12288).

Fixpoint lstrip (s : str) : str :=
  match s with
  | [] => []
  | c :: s' => if isspace c then lstrip s' else s
  end.

Definition rstrip (s : str) : str := rev (lstrip (rev s)).

(** [s.strip()] *)
Definition strip (s : str) : str := rstrip (lstrip s).

(** [s.startswith(p)] *)
Fixpoint startswith (p s : str) : bool :=
  match p, s with
  | [], _ => true
  | _ :: _, [] => false
  | a :: p', b :: s' => (a =? b) && startswith p' s'
  end.

(** [s.replace(old, new)] for a non-empty [old]: the occurrences of [old]
    are replaced from left to right, without overlap.  [skip] counts the code
    points of an occurrence that are still to be dropped. *)
Fixpoint replace_from (old new : str) (skip : nat) (s : str) : str :=
  match s with
  | [] => []
  | c :: s' =>
      match skip with
      | S k => replace_from old new k s'
      | O =>
          if startswith old s
          then new ++ replace_from old new (Nat.pred (length old)) s'
          else c :: replace_from old new O s'
      end
  end.

Definition replace (old new s : str) : str := replace_from old new O s.

(** *** Exceptions *)

Inductive exn : Type :=
| CalledProcessError (returncode : Z) (cmd : list str)
| ValueError (msg : str)
| KeyError (key : str)
| FileNotFoundError (filename : str)
| IsADirectoryError (filename : str)
| PermissionError (filename : str)
| TOMLDecodeError (msg : str)
| SystemExit (code : Z).

(** The outcome of running a piece of Python: a value or a raised exception. *)
Inductive result (A : Type) : Type :=
| Ok (a : A)
| Raise (e : exn).
Arguments Ok {A} a.
Arguments Raise {A} e.

Definition bind {A B} (m : result A) (k : A -> result B) : result B :=
  match m with
  | Ok a => k a
  | Raise e => Raise e
  end.

(** [try: body except <class>: handler], the classes given by [catches]. *)
Definition try_except {A} (body : result A) (catches : exn -> bool)
    (handler : exn -> result A) : result A :=
  match body with
  | Ok a => Ok a
  | Raise e => if catches e then handler e else Raise e
  end.

Definition is_CalledProcessError (e : exn) : bool :=
  match e with
  | CalledProcessError _ _ => true
  | _ => false
  end.

(** *** Insertion-ordered dictionaries with string keys *)

Abbreviation dict V := (list (str * V)).

(** [d[k] = v]: an existing key keeps its position and takes the new value,
    a new key is appended. *)
Fixpoint setitem {V} (d : dict V) (k : str) (v : V) : dict V :=
  match d with
  | [] => [(k, v)]
  | (k', v') :: d' =>
      if decide (k' = k) then (k', v) :: d' else (k', v') :: setitem d' k v
  end.

(** [d.get(k)] *)
Fixpoint get {V} (d : dict V) (k : str) : option V :=
  match d with
  | [] => None
  | (k', v') :: d' => if decide (k' = k) then Some v' else get d' k
  end.

(** [list(d.keys())], in insertion order. *)
Definition keys {V} (d : dict V) : list str := map fst d.

End Py.

Import Py.

#[global] Instance result_bind : MBind result := fun A B k m => bind m k.
#[global] Instance result_ret : MRet result := fun A a => Ok a.

(** ** The external process interface *)

(** [subprocess.CompletedProcess], with the captured standard output decoded
    as text. *)
Record CompletedProcess : Type := mkCompleted {
  returncode : Z;
  stdout : str
}.

(** The operating system running a command line to completion. *)
Abbreviation runtime := (list str -> CompletedProcess).

(** A string with an embedded NUL. *)
Definition has_nul (s : str) : bool := existsb (N.eqb 0) s.

(** [subprocess.run(args, capture_output=True, text=True, check=True)] on a
    machine where the command can be launched and its output decoded: an
    argument with an embedded NUL is refused before anything is launched,
    and a non-zero exit status is turned into [CalledProcessError].  The
    failures of the launch itself (no such program, an argument list the
    system refuses, output that is not text) are outside this model: the
    statements that must hold without that assumption are made on the
    outcome of the call. *)
Definition subprocess_run (rt : runtime) (args : list str)
    : result CompletedProcess :=
  if existsb has_nul args
  then Raise (ValueError (u "embedded null byte"))
  else
    let r := rt args in
    if (returncode r =? 0)%Z then Ok r
    else Raise (CalledProcessError (returncode r) args).

(** ** get_image_digest *)

Definition repo_digest_cmd (image : str) : list str :=
  [u "docker"; u "image"; u "inspect"; image; u "--format";
   u "{{index .RepoDigests 0}}"].

Definition image_id_cmd (image : str) : list str :=
  [u "docker"; u "image"; u "inspect"; image; u "--format"; u "{{.Id}}"].

(** The sentinel [f"unknown:{image}"]. *)
Definition unknown (image : str) : str := u "unknown:" ++ image.

(** The first [try] block either returns from the function ([Some digest]) or
    is left without a return ([None]), also through its [except] clause. *)
Definition try_repo_digest (rt : runtime) (image : str)
    : result (option str) :=
  try_except
    (result ← subprocess_run rt (repo_digest_cmd image);
     let digest := strip (stdout result) in
     if truthy digest then Ok (Some digest) else Ok None)
    is_CalledProcessError
    (fun _ => Ok None).

Definition get_image_digest (rt : runtime) (image : str) : result str :=
  first ← try_repo_digest rt image;
  match first with
  | Some digest => Ok digest
  | None =>
      try_except
        (result ← subprocess_run rt (image_id_cmd image);
         Ok (strip (stdout result)))
        is_CalledProcessError
        (fun _ => Ok (unknown image))
  end.

(** ** Scenarios *)

(** A table of the scenario file.  The fields the program reads are strings
    ([image: str], [dict[str, str]]), so a table maps field names to strings;
    a field may be missing. *)
Abbreviation table := (gmap str str).

(** The parsed scenario: the [green_agent] table and the [participants]
    array of tables, either of which may be missing from the file. *)
Record Scenario : Type := mkScenario {
  green_agent : option table;
  participants : option (list table)
}.

(** [t[k]] on a table. *)
Definition getitem (t : table) (k : str) : result str :=
  match t !! k with
  | Some v => Ok v
  | None => Raise (KeyError k)
  end.

(** [scenario[k]] on the top-level mapping, [field] being what it holds
    under [k]. *)
Definition subscript {A} (field : option A) (k : str) : result A :=
  match field with
  | Some v => Ok v
  | None => Raise (KeyError k)
  end.

(** ** collect_image_digests *)

(** The body of the [for participant in ...] loop, on the dictionary built so
    far. *)
Definition collect_participant (rt : runtime) (digests : dict str)
    (participant : table) : result (dict str) :=
  name ← getitem participant (u "name");
  image ← getitem participant (u "image");
  if truthy image
  then d ← get_image_digest rt image; Ok (setitem digests name d)
  else Ok digests.

(** A [for] loop over a list; an exception in the body ends it. *)
Fixpoint for_each {A S} (body : S -> A -> result S) (l : list A) (s : S)
    : result S :=
  match l with
  | [] => Ok s
  | x :: l' => s' ← body s x; for_each body l' s'
  end.

Definition collect_image_digests (rt : runtime) (sc : Scenario)
    : result (dict str) :=
  let digests : dict str := [] in
  green ← subscript (green_agent sc) (u "green_agent");
  green_image ← getitem green (u "image");
  d ← get_image_digest rt green_image;
  let digests := setitem digests (u "green_agent") d in
  for_each (collect_participant rt) (default [] (participants sc)) digests.

(** ** Timestamps *)

(** An aware [datetime] in UTC. *)
Record datetime : Type := mkDatetime {
  year : N;
  month : N;
  day : N;
  hour : N;
  minute : N;
  second : N;
  microsecond : N
}.

(** The ranges the [datetime] type enforces on its fields. *)
Definition valid_datetime (dt : datetime) : bool :=
  (1 <=? year dt) && (year dt <=? 9999)
  && (1 <=? month dt) && (month dt <=? 12)
  && (1 <=? day dt) && (day dt <=? 31)
  && (hour dt <=? 23) && (minute dt <=? 59) && (second dt <=? 59)
  && (microsecond dt <=? 999999).

(** The character of a decimal digit. *)
Definition digit (d : N) : N := 48 + d.

Fixpoint decimal_fuel (fuel : nat) (n : N) : str :=
  match fuel with
  | O => []
  | S f =>
      if n <? 10 then [digit n]
      else decimal_fuel f (n / 10) ++ [digit (n mod 10)]
  end.

(** [str(n)] for a natural number. *)
Definition decimal (n : N) : str :=
  decimal_fuel (S (N.to_nat (N.log2 n))) n.

(** ["%0<width>d" % n] *)
Definition zero_padded (width : nat) (n : N) : str :=
  let s := decimal n in
  repeat 48 (width - length s)%nat ++ s.

(** [dt.isoformat(timespec="seconds")] for a datetime in UTC. *)
Definition isoformat_seconds (dt : datetime) : str :=
  zero_padded 4 (year dt) ++ u "-" ++ zero_padded 2 (month dt) ++ u "-"
  ++ zero_padded 2 (day dt) ++ u "T" ++ zero_padded 2 (hour dt) ++ u ":"
  ++ zero_padded 2 (minute dt) ++ u ":" ++ zero_padded 2 (second dt)
  ++ u "+00:00".

(** The [timestamp] entry of the provenance record, [now] being
    [datetime.now(timezone.utc)]. *)
Definition timestamp (now : datetime) : str :=
  replace (u "+00:00") (u "Z") (isoformat_seconds now).

(** *** The timestamp pattern *)

Inductive atom : Type :=
| Digit
| Lit (c : N).

Definition is_digit (c : N) : bool := (48 <=? c) && (c <=? 57).

Definition atom_matches (a : atom) (c : N) : bool :=
  match a with
  | Digit => is_digit c
  | Lit l => c =? l
  end.

(** A string matches a sequence of atoms when it has one matching character
    per atom and nothing else. *)
Fixpoint fullmatch (p : list atom) (s : str) : bool :=
  match p, s with
  | [], [] => true
  | a :: p', c :: s' => atom_matches a c && fullmatch p' s'
  | _, _ => false
  end.

Definition lit (s : string) : list atom := map Lit (u s).

(** [^\d{4}-\d{2}-\d{2}T\d{2}:\d{2}:\d{2}Z$] *)
Definition timestamp_re : list atom :=
  repeat Digit 4 ++ lit "-" ++ repeat Digit 2 ++ lit "-" ++ repeat Digit 2
  ++ lit "T" ++ repeat Digit 2 ++ lit ":" ++ repeat Digit 2 ++ lit ":"
  ++ repeat Digit 2 ++ lit "Z".

(** ** JSON documents *)

(** The JSON values the program writes: strings and objects. *)
#[local] Set Warnings "-register-all".
Inductive json : Type :=
| JString (s : str)
| JObject (members : dict json).

(** *** Serialisation: [json.dump(obj, f, indent=2)] *)

Definition hexdigit (d : N) : N := if d <? 10 then 48 + d else 87 + d.

(** ['{0:04x}'.format(n)] for [n < 0x10000]. *)
Definition hex4 (n : N) : str :=
  [hexdigit (n / 4096 mod 16); hexdigit (n / 256 mod 16);
   hexdigit (n / 16 mod 16); hexdigit (n mod 16)].

(** One character of a string literal with [ensure_ascii]: the short escapes,
    printable ASCII as it is, [\uXXXX] for the rest of the basic plane and a
    surrogate pair above it. *)
Definition escape_char (c : N) : str :=
  if c =? 34 then [92; 34]
  else if c =? 92 then u "\\"
  else if c =? 10 then u "\n"
  else if c =? 13 then u "\r"
  else if c =? 9 then u "\t"
  else if c =? 12 then u "\f"
  else if c =? 8 then u "\b"
  else if (32 <=? c) && (c <=? 126) then [c]
  else if c <? 65536 then u "\u" ++ hex4 c
  else
    let v := c - 65536 in
    u "\u" ++ hex4 (55296 + v / 1024) ++ u "\u" ++ hex4 (56320 + v mod 1024).

Definition encode_basestring_ascii (s : str) : str :=
  [34] ++ flat_map escape_char s ++ [34].

Definition newline_indent (level : nat) : str :=
  10 :: repeat 32 (2 * level)%nat.

Fixpoint dumps (level : nat) (v : json) {struct v} : str :=
  match v with
  | JString s => encode_basestring_ascii s
  | JObject [] => u "{}"
  | JObject ((k0, v0) :: ms) =>
      u "{" ++ newline_indent (S level)
      ++ encode_basestring_ascii k0 ++ u ": " ++ dumps (S level) v0
      ++ (fix items (ms : dict json) : str :=
            match ms with
            | [] => []
            | (k, v) :: ms' =>
                u "," ++ newline_indent (S level)
                ++ encode_basestring_ascii k ++ u ": " ++ dumps (S level) v
                ++ items ms'
            end) ms
      ++ newline_indent level ++ u "}"
  end.

(** *** Parsing: [json.loads(text)] on documents of strings and objects *)

Definition is_ws (c : N) : bool :=
  (c =? 32) || (c =? 9) || (c =? 10) || (c =? 13).

Fixpoint skip_ws (s : str) : str :=
  match s with
  | [] => []
  | c :: s' => if is_ws c then skip_ws s' else s
  end.

Definition hexval (c : N) : option N :=
  if (48 <=? c) && (c <=? 57) then Some (c - 48)
  else if (97 <=? c) && (c <=? 102) then Some (c - 87)
  else if (65 <=? c) && (c <=? 70) then Some (c - 55)
  else None.

(** The four hexadecimal digits of a [\uXXXX] escape. *)
Definition parse_hex4 (s : str) : option (N * str) :=
  match s with
  | a :: b :: c :: d :: rest =>
      a' ← hexval a; b' ← hexval b; c' ← hexval c; d' ← hexval d;
      Some (((a' * 16 + b') * 16 + c') * 16 + d', rest)
  | _ => None
  end.

(** The character a one-letter escape stands for. *)
Definition backslash (c : N) : option N :=
  if c =? 34 then Some 34
  else if c =? 92 then Some 92
  else if c =? 47 then Some 47
  else if c =? 98 then Some 8
  else if c =? 102 then Some 12
  else if c =? 110 then Some 10
  else if c =? 114 then Some 13
  else if c =? 116 then Some 9
  else None.

Definition is_high_surrogate (c : N) : bool := (55296 <=? c) && (c <=? 56319).
Definition is_low_surrogate (c : N) : bool := (56320 <=? c) && (c <=? 57343).

(** The body of a string literal, after its opening quote: the decoded
    string and what follows the closing quote.  Control characters are
    refused; a high surrogate escape directly followed by a low one is one
    code point. *)
Fixpoint scanstring_fuel (fuel : nat) (s : str) : option (str * str) :=
  match fuel with
  | O => None
  | S f =>
      match s with
      | [] => None
      | c :: s1 =>
          if c =? 34 then Some ([], s1)
          else if c =? 92 then
            match s1 with
            | [] => None
            | e :: s2 =>
                if e =? 117 then
                  '(uni, s3) ← parse_hex4 s2;
                  match (if is_high_surrogate uni then
                           match s3 with
                           | 92 :: 117 :: s4 =>
                               '(uni2, s5) ← parse_hex4 s4;
                               Some (if is_low_surrogate uni2
                                     then (65536 + (uni - 55296) * 1024
                                           + (uni2 - 56320), s5)
                                     else (uni, s3))
                           | _ => Some (uni, s3)
                           end
                         else Some (uni, s3)) with
                  | Some (c', s') =>
                      '(r, rest) ← scanstring_fuel f s'; Some (c' :: r, rest)
                  | None => None
                  end
                else
                  c' ← backslash e;
                  '(r, rest) ← scanstring_fuel f s2; Some (c' :: r, rest)
            end
          else if c <? 32 then None
          else '(r, rest) ← scanstring_fuel f s1; Some (c :: r, rest)
      end
  end.

Definition scanstring (s : str) : option (str * str) :=
  scanstring_fuel (S (length s)) s.

(** A value at the head of [s], and the members of an object after the
    opening quote of a key; [members] are the pairs read so far, entered
    with a dictionary's update. *)
Fixpoint parse_value (fuel : nat) (s : str) : option (json * str) :=
  match fuel with
  | O => None
  | S f =>
      match s with
      | 34 :: s1 => '(r, rest) ← scanstring s1; Some (JString r, rest)
      | 123 :: s1 =>
          match skip_ws s1 with
          | 125 :: rest => Some (JObject [], rest)
          | 34 :: s2 => parse_members f [] s2
          | _ => None
          end
      | _ => None
      end
  end
with parse_members (fuel : nat) (members : dict json) (s : str)
    : option (json * str) :=
  match fuel with
  | O => None
  | S f =>
      '(key, s1) ← scanstring s;
      match skip_ws s1 with
      | 58 :: s2 =>
          '(v, s3) ← parse_value f (skip_ws s2);
          let members := setitem members key v in
          match skip_ws s3 with
          | 125 :: rest => Some (JObject members, rest)
          | 44 :: s4 =>
              match skip_ws s4 with
              | 34 :: s5 => parse_members f members s5
              | _ => None
              end
          | _ => None
          end
      | _ => None
      end
  end.

(** [json.loads(text)]: one value, surrounded by white space only. *)
Definition loads (text : str) : option json :=
  '(v, rest) ← parse_value (S (length text)) (skip_ws text);
  match skip_ws rest with
  | [] => Some v
  | _ :: _ => None
  end.

(** ** The process and its world *)

Inductive node : Type :=
| File (content : str)
| Directory.

(** What the program can observe and change: the file system (by path), the
    two output streams, the clock, and the paths the operating system refuses
    to open for writing (a missing or protected directory). *)
Record world : Type := mkWorld {
  fs : gmap str node;
  sys_stdout : str;
  sys_stderr : str;
  clock : datetime;
  refused : str -> option exn
}.

(** A statement: it may change the world, and returns or raises. *)
Definition prog (A : Type) : Type := world -> world * result A.

Definition ret {A} (a : A) : prog A := fun w => (w, Ok a).

Definition lift {A} (r : result A) : prog A := fun w => (w, r).

Definition prog_bind {A B} (m : prog A) (k : A -> prog B) : prog B :=
  fun w =>
    match m w with
    | (w', Ok a) => k a w'
    | (w', Raise e) => (w', Raise e)
    end.

#[global] Instance prog_mbind : MBind prog := fun A B k m => prog_bind m k.

(** [print(s)] *)
Definition print (s : str) : prog unit :=
  fun w =>
    (mkWorld (fs w) (sys_stdout w ++ s ++ [10]) (sys_stderr w) (clock w)
       (refused w),
     Ok tt).

(** [sys.exit(code)] *)
Definition sys_exit {A} (code : Z) : prog A := lift (Raise (SystemExit code)).

(** [path.exists()] *)
Definition path_exists (path : str) : prog bool :=
  fun w => (w, Ok (bool_decide (is_Some (fs w !! path)))).

(** [path.read_text()] *)
Definition read_text (path : str) : prog str :=
  fun w =>
    (w,
     match fs w !! path with
     | Some (File content) => Ok content
     | Some Directory => Raise (IsADirectoryError path)
     | None => Raise (FileNotFoundError path)
     end).

(** [with open(path, "w") as f: f.write(content)]: the file cannot be
    opened, and nothing changes, or it is opened and the write completes.  A
    write that fails after the file was opened (and emptied) is outside this
    model. *)
Definition write_text (path content : str) : prog unit :=
  fun w =>
    match fs w !! path, refused w path with
    | Some Directory, _ => (w, Raise (IsADirectoryError path))
    | _, Some e => (w, Raise e)
    | _, None =>
        (mkWorld (<[path := File content]> (fs w)) (sys_stdout w)
           (sys_stderr w) (clock w) (refused w),
         Ok tt)
    end.

(** [datetime.now(timezone.utc)] *)
Definition now_utc : prog datetime := fun w => (w, Ok (clock w)).

(** The status the process ends with. *)
Definition exit_status {A} (r : result A) : Z :=
  match r with
  | Ok _ => 0
  | Raise (SystemExit code) => code
  | Raise _ => 1
  end.

(** ** parse_scenario *)

(** [tomli.loads] is the TOML library's parser, a parameter here. *)
Definition parse_scenario (tomli_loads : str -> result Scenario)
    (scenario_path : str) : prog Scenario :=
  toml_data ← read_text scenario_path;
  lift (tomli_loads toml_data).

(** ** write_provenance *)

(** The digest dictionary as a JSON object of strings. *)
Definition digests_json (image_digests : dict str) : json :=
  JObject (map (fun kv => (kv.1, JString kv.2)) image_digests).

(** The [provenance] dictionary of [write_provenance]. *)
Definition provenance (image_digests : dict str) (now : datetime) : json :=
  JObject
    (setitem
       (setitem [] (u "image_digests") (digests_json image_digests))
       (u "timestamp") (JString (timestamp now))).

Definition write_provenance (output_path : str) (image_digests : dict str)
    : prog unit :=
  now ← now_utc;
  write_text output_path (dumps 0 (provenance image_digests now)).

(** ** main *)

(** The parsed command line: both options are required. *)
Record Namespace : Type := mkNamespace {
  scenario : str;
  output : str
}.

Definition main (tomli_loads : str -> result Scenario) (rt : runtime)
    (args : Namespace) : prog unit :=
  found ← path_exists (scenario args);
  (if negb found
   then
     print (u "Error: " ++ scenario args ++ u " not found");;
     sys_exit 1
   else ret tt);;
  sc ← parse_scenario tomli_loads (scenario args);
  image_digests ← lift (collect_image_digests rt sc);
  write_provenance (output args) image_digests;;
  print (u "Recorded provenance to " ++ output args ++ u " ("
         ++ decimal (N.of_nat (length image_digests)) ++ u " images)").

(** ** Sample runtimes and scenarios *)

(** A runtime that knows no image: every inspection exits with status 1. *)
Definition rt_missing : runtime := fun _ => mkCompleted 1 [].

(** A runtime holding one pulled image: both inspections succeed. *)
Definition rt_pulled : runtime :=
  fun args =>
    if decide (args = repo_digest_cmd (u "registry.example/app:1.0"))
    then mkCompleted 0 (u "registry.example/app@sha256:abcd" ++ [10])
    else if decide (args = image_id_cmd (u "registry.example/app:1.0"))
    then mkCompleted 0 (u "sha256:0123" ++ [10])
    else mkCompleted 1 [].

(** A runtime holding one locally built image: it has no repo digest, so
    only the inspection of its identifier succeeds. *)
Definition rt_local : runtime :=
  fun args =>
    if decide (args = image_id_cmd (u "local-build:latest"))
    then mkCompleted 0 (u "sha256:deadbeef" ++ [10])
    else mkCompleted 1 [].

(** An image reference with an embedded NUL, as the TOML string
    ["bad\u0000image"] denotes. *)
Definition nul_image : str := u "bad" ++ [0] ++ u "image".

(** ** Vocabulary of the statements *)

(** The fields of a participant entry, empty when missing. *)
Definition name_of (t : table) : str := default [] (t !! u "name").
Definition image_of (t : table) : str := default [] (t !! u "image").

(** A table with an [image] the runtime can be asked about: the field is
    present and has no embedded NUL. *)
Definition valid_table (t : table) : bool :=
  match t !! u "image" with
  | Some image => negb (has_nul image)
  | None => false
  end.

Definition valid_participant (t : table) : bool :=
  bool_decide (is_Some (t !! u "name")) && valid_table t.

(** A scenario with a valid [green_agent.image] and valid participant
    entries. *)
Definition valid_scenario (sc : Scenario) : bool :=
  match green_agent sc with
  | Some green => valid_table green
  | None => false
  end
  && forallb valid_participant (default [] (participants sc)).

(** The string the resolver returns, for an image it does not raise on. *)
Definition resolved (rt : runtime) (image : str) : str :=
  match get_image_digest rt image with
  | Ok digest => digest
  | Raise _ => []
  end.

(** The participant entries the collector resolves: those with a non-empty
    image. *)
Definition with_image (ps : list table) : list table :=
  filter (fun p => image_of p <> []) ps.

(** The assignments [digests[k] = v] the collector performs, in order. *)
Definition writes (rt : runtime) (green : table) (ps : list table)
    : list (str * str) :=
  (u "green_agent", resolved rt (image_of green))
  :: map (fun p => (name_of p, resolved rt (image_of p))) (with_image ps).

(** A sequence of assignments applied to a dictionary. *)
Definition assign_all {V} (d : dict V) (ws : list (str * V)) : dict V :=
  fold_left (fun d w => setitem d w.1 w.2) ws d.

(** The first occurrence of each element, in order. *)
Fixpoint first_occurrences (l : list str) : list str :=
  match l with
  | [] => []
  | x :: l' => x :: filter (fun y => y <> x) (first_occurrences l')
  end.

(** A participant entry with both fields. *)
Definition participant (name image : string) : table :=
  {[ u "name" := u name; u "image" := u image ]}.

Definition green_table : table := {[ u "image" := u "registry.example/app:1.0" ]}.

(** A scenario with a participant that has an image and one that has an
    empty image. *)
Definition sc_judge_idle : Scenario :=
  mkScenario (Some green_table)
    (Some [participant "judge" "local-build:latest"; participant "idle" ""]).

(** A scenario in which two entries are named [judge]. *)
Definition sc_two_judges : Scenario :=
  mkScenario (Some green_table)
    (Some [participant "judge" "old:1"; participant "idle" "";
           participant "judge" "local-build:latest"]).

(** A scenario with a participant named [green_agent]. *)
Definition sc_green_participant : Scenario :=
  mkScenario (Some green_table)
    (Some [participant "judge" "old:1";
           participant "green_agent" "local-build:latest"]).

(** A scenario whose green agent has an empty image. *)
Definition sc_green_blank : Scenario :=
  mkScenario (Some {[ u "image" := [] ]})
    (Some [participant "judge" "local-build:latest"]).

(** A scenario with an entry that has a name and no [image] field, and the
    same scenario with the field present and empty. *)
Definition sc_no_image : Scenario :=
  mkScenario (Some green_table) (Some [ {[ u "name" := u "judge" ]} ]).

Definition sc_blank_image : Scenario :=
  mkScenario (Some green_table) (Some [participant "judge" ""]).

(** A world without files, at some instant. *)
Definition sample_instant : datetime := mkDatetime 2024 3 7 9 5 0 123456.

Definition empty_world : world :=
  mkWorld ∅ [] [] sample_instant (fun _ => None).

Definition sample_args : Namespace :=
  mkNamespace (u "scenario.toml") (u "provenance.json").

(** A stand-in for the TOML parser, never reached when the file is missing. *)
Definition no_toml : str -> result Scenario :=
  fun _ => Raise (TOMLDecodeError (u "Invalid statement")).

(** A Unicode scalar value: a code point that is not a surrogate.  The
    strings of a scenario file and of decoded process output are made of
    these. *)
Definition is_scalar (c : N) : bool :=
  (c <? 1114112) && negb ((55296 <=? c) && (c <=? 57343)).

Definition scalar_str (s : str) : bool := forallb is_scalar s.

Definition scalar_digests (d : dict str) : bool :=
  forallb (fun kv => scalar_str kv.1 && scalar_str kv.2) d.

(** The shapes [zero_padded] is checked against. *)
Definition two_digits (s : str) : bool :=
  match s with
  | [a; b] => is_digit a && is_digit b
  | _ => false
  end.

Definition four_digits (s : str) : bool :=
  match s with
  | [a; b; c; d] => is_digit a && is_digit b && is_digit c && is_digit d
  | _ => false
  end.

(** The text of a string literal after its opening quote, followed by
    [rest]. *)
Definition literal_then (s rest : str) : str :=
  flat_map escape_char s ++ 34 :: rest.

(** The text of the members of the digest object after the first, each on
    its own line at indentation four, followed by [rest]. *)
Fixpoint items_then (d : dict str) (rest : str) : str :=
  match d with
  | [] => rest
  | (k, v) :: d' =>
      44 :: 10 :: 32 :: 32 :: 32 :: 32 :: 34
      :: literal_then k (58 :: 32 :: 34 :: literal_then v (items_then d' rest))
  end.

(** The text of the digest object at indentation two, followed by [rest]. *)
Definition digests_then (d : dict str) (rest : str) : str :=
  match d with
  | [] => 123 :: 125 :: rest
  | (k, v) :: d' =>
      123 :: 10 :: 32 :: 32 :: 32 :: 32 :: 34
      :: literal_then k
           (58 :: 32 :: 34
            :: literal_then v (items_then d' (10 :: 32 :: 32 :: 125 :: rest)))
  end.

(** A digest mapping as the collector returns it. *)
Definition sample_digests : dict str :=
  [(u "green_agent", u "registry.example/app@sha256:abcd");
   (u "judge", u "unknown:local-build:latest")].

(** The runtime of [rt_local] on a machine that also answers another
    command. *)
Definition rt_local_busy : runtime :=
  fun args =>
    if decide (args = [u "docker"; u "version"])
    then mkCompleted 0 (u "27.0.1" ++ [10])
    else rt_local args.

(** A runtime whose inspections succeed with blank output. *)
Definition rt_blank : runtime := fun _ => mkCompleted 0 [32; 10].

(** A scenario without a [green_agent] table, and one whose table has no
    [image]. *)
Definition sc_no_green : Scenario :=
  mkScenario None (Some [participant "judge" "local-build:latest"]).

Definition sc_green_no_image : Scenario :=
  mkScenario (Some {[ u "name" := u "green" ]})
    (Some [participant "judge" "local-build:latest"]).

(** A scenario with an entry that has an image and no [name]. *)
Definition sc_no_name : Scenario :=
  mkScenario (Some green_table)
    (Some [participant "judge" "local-build:latest";
           {[ u "image" := u "old:1" ]}]).

(** A scenario with an entry whose image has an embedded NUL. *)
Definition sc_nul_image : Scenario :=
  mkScenario (Some green_table)
    (Some [participant "judge" "local-build:latest";
           {[ u "name" := u "bad"; u "image" := nul_image ]}]).

(** ** The script *)

(** The import at the head of the module: [tomli] when it can be imported,
    else [tomllib] under the same name; [None] stands for a module whose
    import raises [ImportError].  Without either, the script prints a
    message and exits. *)
Definition import_tomli (tomli tomllib : option (str -> result Scenario))
    : prog (str -> result Scenario) :=
  match tomli with
  | Some loads => ret loads
  | None =>
      match tomllib with
      | Some loads => ret loads
      | None =>
          print (u "Error: tomli required. Install with: pip install tomli");;
          sys_exit 1
      end
  end.

(** The module run as a script, on its parsed command line. *)
Definition script (tomli tomllib : option (str -> result Scenario))
    (rt : runtime) (args : Namespace) : prog unit :=
  tomli_loads ← import_tomli tomli tomllib;
  main tomli_loads rt args.

(** The parser the script ends up with. *)
Definition chosen (tomli tomllib : option (str -> result Scenario))
    (loads : str -> result Scenario) : Prop :=
  tomli = Some loads \/ (tomli = None /\ tomllib = Some loads).

(** The number a string of decimal digits stands for. *)
Definition digits_value (s : str) : N :=
  fold_left (fun acc c => acc * 10 + (c - 48)) s 0.

(** A line feed or a printable ASCII character. *)
Definition is_printable (c : N) : bool :=
  (c =? 10) || ((32 <=? c) && (c <=? 126)).

(** A parser that knows one scenario file. *)
Definition sample_toml : str :=
  u "[green_agent]" ++ [10] ++ u "image = 'registry.example/app:1.0'" ++ [10].

Definition sample_loads : str -> result Scenario :=
  fun text =>
    if decide (text = sample_toml)
    then Ok (mkScenario (Some green_table) None)
    else Raise (TOMLDecodeError (u "Invalid statement")).

(** A world with that scenario file, and an older output file. *)
Definition sample_world : world :=
  mkWorld {[ u "scenario.toml" := File sample_toml;
             u "provenance.json" := File (u "{}") ]}
    [] [] sample_instant (fun _ => None).

(** A world whose scenario file is not TOML. *)
Definition broken_world : world :=
  mkWorld {[ u "scenario.toml" := File (u "green_agent = ") ]}
    [] [] sample_instant (fun _ => None).

(** ** Tactics *)

(** [main] as a function of the world. *)
Ltac unfold_main :=
  unfold main, parse_scenario;
  unfold mbind, prog_mbind, prog_bind, path_exists, read_text, lift, ret;
  cbv beta iota zeta.

(** [main] past the test that the scenario path exists. *)
Ltac main_found Hfile :=
  unfold_main; rewrite Hfile, bool_decide_eq_true_2 by eauto;
  cbv beta iota zeta delta [negb]; rewrite ?Hfile; cbv beta iota zeta.

(** * Properties *)

(** ** Sequencing *)

Lemma bind_Ok {A B} (a : A) (k : A -> result B) : (x ← Ok a; k x) = k a.
Proof. reflexivity. Qed.

Lemma bind_Raise {A B} (e : exn) (k : A -> result B) :
  (x ← Raise e; k x) = Raise e.
Proof. reflexivity. Qed.

(** ** The digest resolver *)

Lemma has_nul_u_cmd (image : str) :
  has_nul image = false ->
  existsb has_nul (repo_digest_cmd image) = false
  /\ existsb has_nul (image_id_cmd image) = false.
Proof.
  intros Himage. unfold repo_digest_cmd, image_id_cmd. cbn [existsb].
  rewrite Himage. split; vm_compute; reflexivity.
Qed.

Lemma subprocess_run_launched (rt : runtime) (args : list str) :
  existsb has_nul args = false ->
  subprocess_run rt args =
    if (returncode (rt args) =? 0)%Z then Ok (rt args)
    else Raise (CalledProcessError (returncode (rt args)) args).
Proof. intros Hargs. unfold subprocess_run. rewrite Hargs. reflexivity. Qed.

Lemma subprocess_run_Ok (rt : runtime) (args : list str) (r : CompletedProcess) :
  subprocess_run rt args = Ok r -> returncode r = 0%Z /\ r = rt args.
Proof.
  unfold subprocess_run. destruct (existsb has_nul args); [discriminate|].
  cbn zeta. destruct (Z.eqb_spec (returncode (rt args)) 0) as [Hz|Hz];
    [|discriminate].
  intros [= <-]. split; [exact Hz | reflexivity].
Qed.

Lemma truthy_nonempty (s : str) : truthy s = true <-> s <> [].
Proof. destruct s; cbn; split; congruence. Qed.

(** What the first [try] block leaves behind, by the outcome of the
    repo-digest inspection. *)
Lemma try_repo_digest_Ok (rt : runtime) (image : str) (r1 : CompletedProcess) :
  subprocess_run rt (repo_digest_cmd image) = Ok r1 ->
  try_repo_digest rt image =
    Ok (if truthy (strip (stdout r1)) then Some (strip (stdout r1)) else None).
Proof.
  intros Hrun. unfold try_repo_digest. rewrite Hrun. cbn.
  destruct (truthy (strip (stdout r1))); reflexivity.
Qed.

Lemma try_repo_digest_failed (rt : runtime) (image : str) (rc : Z)
    (cmd : list str) :
  subprocess_run rt (repo_digest_cmd image) = Raise (CalledProcessError rc cmd) ->
  try_repo_digest rt image = Ok None.
Proof. intros Hrun. unfold try_repo_digest. rewrite Hrun. reflexivity. Qed.

(** C1: the resolver follows the three-step fallback.  (1) When the
    repo-digest inspection succeeds and its trimmed output is not empty, that
    trimmed output is returned.  (2) Otherwise (the first inspection
    succeeded with blank output, or failed with a non-zero status), when the
    identifier inspection succeeds its trimmed output is returned, empty or
    not.  (3) When both inspections fail with a non-zero status, the sentinel
    [unknown:<image>] is returned. *)
Theorem get_image_digest_fallback (rt : runtime) (image : str) :
  (forall r1,
      subprocess_run rt (repo_digest_cmd image) = Ok r1 ->
      strip (stdout r1) <> [] ->
      get_image_digest rt image = Ok (strip (stdout r1)))
  /\ (forall r2,
         ((exists r1, subprocess_run rt (repo_digest_cmd image) = Ok r1
                      /\ strip (stdout r1) = [])
          \/ (exists rc cmd, rc <> 0%Z
                /\ subprocess_run rt (repo_digest_cmd image)
                   = Raise (CalledProcessError rc cmd))) ->
         subprocess_run rt (image_id_cmd image) = Ok r2 ->
         get_image_digest rt image = Ok (strip (stdout r2)))
  /\ (forall rc1 cmd1 rc2 cmd2,
         rc1 <> 0%Z -> rc2 <> 0%Z ->
         subprocess_run rt (repo_digest_cmd image)
           = Raise (CalledProcessError rc1 cmd1) ->
         subprocess_run rt (image_id_cmd image)
           = Raise (CalledProcessError rc2 cmd2) ->
         get_image_digest rt image = Ok (unknown image)).
Proof.
  split; [|split].
  - intros r1 Hrun Hne. unfold get_image_digest.
    rewrite (try_repo_digest_Ok _ _ _ Hrun).
    apply truthy_nonempty in Hne. rewrite Hne. reflexivity.
  - intros r2 Hfirst Hrun2. unfold get_image_digest.
    assert (try_repo_digest rt image = Ok None) as ->.
    { destruct Hfirst as [(r1 & Hrun & Hblank) | (rc & cmd & _ & Hrun)].
      - rewrite (try_repo_digest_Ok _ _ _ Hrun), Hblank. reflexivity.
      - exact (try_repo_digest_failed _ _ _ _ Hrun). }
    cbn. rewrite Hrun2. reflexivity.
  - intros rc1 cmd1 rc2 cmd2 _ _ Hrun1 Hrun2. unfold get_image_digest.
    rewrite (try_repo_digest_failed _ _ _ _ Hrun1). cbn.
    rewrite Hrun2. reflexivity.
Qed.

Lemma get_image_digest_fallback_witness :
  get_image_digest rt_pulled (u "registry.example/app:1.0")
    = Ok (u "registry.example/app@sha256:abcd")
  /\ get_image_digest rt_local (u "local-build:latest")
     = Ok (u "sha256:deadbeef")
  /\ get_image_digest rt_missing (u "no-such-image")
     = Ok (u "unknown:no-such-image").
Proof.
  split; [|split].
  - pose proof (proj1 (get_image_digest_fallback rt_pulled
                         (u "registry.example/app:1.0"))
                  (mkCompleted 0 (u "registry.example/app@sha256:abcd" ++ [10])))
      as Hfirst.
    specialize (Hfirst ltac:(vm_compute; reflexivity)
                       ltac:(vm_compute; discriminate)).
    vm_compute in Hfirst. vm_compute. exact Hfirst.
  - pose proof (proj1 (proj2 (get_image_digest_fallback rt_local
                                (u "local-build:latest")))
                  (mkCompleted 0 (u "sha256:deadbeef" ++ [10])))
      as Hsecond.
    assert (exists rc cmd, rc <> 0%Z
              /\ subprocess_run rt_local (repo_digest_cmd (u "local-build:latest"))
                 = Raise (CalledProcessError rc cmd)) as Hfailed.
    { exists 1%Z, (repo_digest_cmd (u "local-build:latest")).
      split; [discriminate | vm_compute; reflexivity]. }
    specialize (Hsecond (or_intror Hfailed) ltac:(vm_compute; reflexivity)).
    vm_compute in Hsecond. vm_compute. exact Hsecond.
  - pose proof (proj2 (proj2 (get_image_digest_fallback rt_missing
                                (u "no-such-image")))
                  1%Z (repo_digest_cmd (u "no-such-image"))
                  1%Z (image_id_cmd (u "no-such-image"))) as Hthird.
    specialize (Hthird ltac:(discriminate) ltac:(discriminate)
                       ltac:(vm_compute; reflexivity)
                       ltac:(vm_compute; reflexivity)).
    vm_compute in Hthird. vm_compute. exact Hthird.
Defined.

(** The resolver on an image reference with an embedded NUL: the command is
    never launched and the [ValueError] passes both [except] clauses. *)
Lemma get_image_digest_nul (rt : runtime) (image : str) :
  has_nul image = true ->
  get_image_digest rt image = Raise (ValueError (u "embedded null byte")).
Proof.
  intros Hnul. unfold get_image_digest, try_repo_digest, subprocess_run.
  assert (existsb has_nul (repo_digest_cmd image) = true) as ->.
  { unfold repo_digest_cmd. cbn [existsb]. rewrite Hnul.
    rewrite !orb_true_r. reflexivity. }
  reflexivity.
Qed.




(** The resolver as a decision table, once the commands can be launched. *)
Lemma get_image_digest_launched (rt : runtime) (image : str) :
  has_nul image = false ->
  let r1 := rt (repo_digest_cmd image) in
  let r2 := rt (image_id_cmd image) in
  get_image_digest rt image =
    Ok (if (returncode r1 =? 0)%Z && truthy (strip (stdout r1))
        then strip (stdout r1)
        else if (returncode r2 =? 0)%Z then strip (stdout r2)
        else unknown image).
Proof.
  intros Himage r1 r2.
  destruct (has_nul_u_cmd image Himage) as [Hcmd1 Hcmd2].
  unfold get_image_digest, try_repo_digest.
  rewrite (subprocess_run_launched rt _ Hcmd1),
    (subprocess_run_launched rt _ Hcmd2).
  fold r1 r2.
  destruct (returncode r1 =? 0)%Z; cbn;
    [destruct (truthy (strip (stdout r1))); cbn; [reflexivity|] |];
    destruct (returncode r2 =? 0)%Z; reflexivity.
Qed.

Lemma get_image_digest_resolved (rt : runtime) (image : str) :
  has_nul image = false ->
  get_image_digest rt image = Ok (resolved rt image).
Proof.
  intros Himage. unfold resolved.
  rewrite (get_image_digest_launched rt image Himage). reflexivity.
Qed.

(** ** Dictionaries *)

Section Dict.
Context {V : Type}.
Implicit Types (d : dict V) (k : str) (v : V) (ws : list (str * V)).

Lemma get_setitem d k v k' :
  get (setitem d k v) k' = if decide (k = k') then Some v else get d k'.
Proof.
  induction d as [|[k0 v0] d IH]; cbn.
  - repeat case_decide; congruence.
  - destruct (decide (k0 = k)) as [->|Hne]; cbn.
    + repeat case_decide; congruence.
    + rewrite IH. repeat case_decide; congruence.
Qed.

Lemma get_is_Some d k : is_Some (get d k) <-> k ∈ keys d.
Proof.
  induction d as [|[k0 v0] d IH]; cbn.
  - split; [intros [? [=]] | intros H; inversion H].
  - rewrite elem_of_cons. case_decide as Hk.
    + subst. split; [auto | eauto].
    + rewrite IH. unfold keys. split; [auto | intros [?|?]; congruence].
Qed.

Lemma keys_setitem d k v :
  keys (setitem d k v) = if decide (k ∈ keys d) then keys d else keys d ++ [k].
Proof.
  induction d as [|[k0 v0] d IH]; cbn.
  - case_decide as Hin; [inversion Hin | reflexivity].
  - destruct (decide (k0 = k)) as [->|Hne]; cbn.
    + rewrite decide_True by apply list_elem_of_here. reflexivity.
    + unfold keys in *. rewrite IH.
      destruct (decide (k ∈ map fst d)) as [Hin|Hnin].
      * rewrite decide_True by (apply list_elem_of_further; exact Hin).
        reflexivity.
      * rewrite decide_False; [reflexivity|].
        rewrite elem_of_cons. intros [?|?]; congruence.
Qed.

Lemma assign_all_cons d k v ws :
  assign_all d ((k, v) :: ws) = assign_all (setitem d k v) ws.
Proof. reflexivity. Qed.

Lemma assign_all_app d ws1 ws2 :
  assign_all d (ws1 ++ ws2) = assign_all (assign_all d ws1) ws2.
Proof. unfold assign_all. apply fold_left_app. Qed.

(** An assignment sequence that never names [k] leaves [d.get(k)] alone. *)
Lemma get_assign_all_other d ws k :
  Forall (fun w => w.1 <> k) ws ->
  get (assign_all d ws) k = get d k.
Proof.
  intros Hws. revert d.
  induction Hws as [|[k0 v0] ws Hne _ IH]; intros d; [reflexivity|].
  rewrite assign_all_cons, IH, get_setitem.
  rewrite decide_False by exact Hne. reflexivity.
Qed.

(** The last assignment to a key decides its value. *)
Lemma get_assign_all_last d ws1 k v ws2 :
  Forall (fun w => w.1 <> k) ws2 ->
  get (assign_all d (ws1 ++ (k, v) :: ws2)) k = Some v.
Proof.
  intros Hws2. rewrite assign_all_app, assign_all_cons.
  rewrite (get_assign_all_other _ _ _ Hws2), get_setitem.
  rewrite decide_True by reflexivity. reflexivity.
Qed.
End Dict.

(** *** Key order *)

Lemma elem_of_first_occurrences (l : list str) (x : str) :
  x ∈ first_occurrences l <-> x ∈ l.
Proof.
  induction l as [|y l IH]; cbn; [reflexivity|].
  rewrite !elem_of_cons, list_elem_of_filter, IH.
  destruct (decide (x = y)); tauto.
Qed.

Lemma filter_all (P : str -> Prop) `{!forall x, Decision (P x)} (l : list str) :
  Forall P l -> filter P l = l.
Proof.
  induction 1 as [|x l Hx _ IH]; [reflexivity|].
  rewrite filter_cons_True by exact Hx. rewrite IH. reflexivity.
Qed.

Lemma first_occurrences_NoDup (l : list str) :
  NoDup l -> first_occurrences l = l.
Proof.
  induction 1 as [|x l Hx _ IH]; cbn; [reflexivity|].
  rewrite IH, filter_all; [reflexivity|].
  apply Forall_forall. intros y Hy ->. exact (Hx Hy).
Qed.

Lemma keys_assign_all {V} (d : dict V) (ws : list (str * V)) :
  keys (assign_all d ws)
  = keys d ++ filter (fun k => k ∉ keys d) (first_occurrences (map fst ws)).
Proof.
  revert d. induction ws as [|[k v] ws IH]; intros d.
  - cbn. rewrite app_nil_r. reflexivity.
  - rewrite assign_all_cons, IH, keys_setitem. cbn [map fst first_occurrences].
    destruct (decide (k ∈ keys d)) as [Hin|Hnin].
    + rewrite filter_cons_False by (intros Hnot; exact (Hnot Hin)).
      rewrite list_filter_filter_l; [reflexivity|].
      intros x Hx ->. exact (Hx Hin).
    + rewrite filter_cons_True by exact Hnin.
      rewrite list_filter_filter, <- app_assoc. cbn.
      do 2 f_equal. apply list_filter_iff. intros x.
      rewrite not_elem_of_app, list_elem_of_singleton. reflexivity.
Qed.

Lemma keys_assign_all_nil {V} (ws : list (str * V)) :
  keys (assign_all [] ws) = first_occurrences (map fst ws).
Proof.
  rewrite keys_assign_all. cbn. apply filter_all, Forall_forall.
  intros x _. apply not_elem_of_nil.
Qed.

(** ** The digest collector *)

Lemma valid_table_image (t : table) :
  valid_table t = true ->
  t !! u "image" = Some (image_of t) /\ has_nul (image_of t) = false.
Proof.
  unfold valid_table, image_of. destruct (t !! u "image") as [image|];
    [|discriminate].
  intros Hnul%negb_true_iff. split; [reflexivity | exact Hnul].
Qed.

Lemma valid_participant_fields (p : table) :
  valid_participant p = true ->
  p !! u "name" = Some (name_of p)
  /\ p !! u "image" = Some (image_of p)
  /\ has_nul (image_of p) = false.
Proof.
  unfold valid_participant. intros [Hname Htable]%andb_prop.
  apply bool_decide_eq_true in Hname. destruct Hname as [name Hname].
  split; [|exact (valid_table_image p Htable)].
  unfold name_of. rewrite Hname. reflexivity.
Qed.

(** One turn of the loop on a well-formed entry. *)
Lemma collect_participant_valid (rt : runtime) (digests : dict str) (p : table) :
  valid_participant p = true ->
  collect_participant rt digests p =
    Ok (if truthy (image_of p)
        then setitem digests (name_of p) (resolved rt (image_of p))
        else digests).
Proof.
  intros (Hname & Himage & Hnul)%valid_participant_fields.
  unfold collect_participant, getitem. rewrite Hname, Himage. cbn.
  destruct (truthy (image_of p)); [|reflexivity].
  rewrite (get_image_digest_resolved rt _ Hnul). reflexivity.
Qed.

Lemma with_image_cons (p : table) (ps : list table) :
  with_image (p :: ps) =
    if truthy (image_of p) then p :: with_image ps else with_image ps.
Proof.
  unfold with_image. rewrite filter_cons.
  destruct (image_of p); cbn; case_decide; congruence.
Qed.

(** The whole loop on well-formed entries: the assignments of the entries
    with an image, in order. *)
Lemma for_each_valid (rt : runtime) (ps : list table) (digests : dict str) :
  forallb valid_participant ps = true ->
  for_each (collect_participant rt) ps digests =
    Ok (assign_all digests
          (map (fun p => (name_of p, resolved rt (image_of p)))
             (with_image ps))).
Proof.
  revert digests. induction ps as [|p ps IH]; intros digests Hvalid;
    [reflexivity|].
  cbn in Hvalid. apply andb_prop in Hvalid as [Hp Hps].
  cbn [for_each].
  rewrite (collect_participant_valid rt digests p Hp), with_image_cons.
  destruct (truthy (image_of p)); exact (IH _ Hps).
Qed.

(** The collector on a valid scenario returns the dictionary its
    assignments build. *)
Lemma collect_image_digests_valid (rt : runtime) (sc : Scenario) :
  valid_scenario sc = true ->
  exists green,
    green_agent sc = Some green
    /\ green !! u "image" = Some (image_of green)
    /\ collect_image_digests rt sc =
         Ok (assign_all [] (writes rt green (default [] (participants sc)))).
Proof.
  unfold valid_scenario. intros [Hgreen Hps]%andb_prop.
  destruct (green_agent sc) as [green|] eqn:Hsc; [|discriminate].
  exists green. destruct (valid_table_image green Hgreen) as [Himage Hnul].
  split; [reflexivity|]. split; [exact Himage|].
  unfold collect_image_digests, getitem, subscript.
  rewrite Hsc, bind_Ok, Himage, bind_Ok.
  rewrite (get_image_digest_resolved rt _ Hnul), bind_Ok.
  rewrite (for_each_valid rt _ _ Hps). reflexivity.
Qed.

Lemma elem_of_with_image (p : table) (ps : list table) :
  p ∈ with_image ps <-> image_of p <> [] /\ p ∈ ps.
Proof.
  unfold with_image.
  exact (list_elem_of_filter (fun p => image_of p <> []) ps p).
Qed.

Lemma map_fst_writes (rt : runtime) (green : table) (ps : list table) :
  map fst (writes rt green ps) = u "green_agent" :: map name_of (with_image ps).
Proof. unfold writes. cbn [map fst]. rewrite map_map. reflexivity. Qed.

(** C2: for a scenario with a valid [green_agent.image] (and valid
    participant entries) the collector returns a mapping that contains the
    key [green_agent], contains the name of every participant with a
    non-empty image, and in which every key is [green_agent] or the name of
    a participant with a non-empty image: an entry whose image is empty
    contributes no key. *)
Theorem collect_image_digests_keys (rt : runtime) (sc : Scenario) :
  valid_scenario sc = true ->
  let ps := default [] (participants sc) in
  exists digests,
    collect_image_digests rt sc = Ok digests
    /\ u "green_agent" ∈ keys digests
    /\ (forall p, p ∈ ps -> image_of p <> [] -> name_of p ∈ keys digests)
    /\ (forall k, k ∈ keys digests ->
          k = u "green_agent"
          \/ exists p, p ∈ ps /\ image_of p <> [] /\ name_of p = k).
Proof.
  intros Hvalid ps.
  destruct (collect_image_digests_valid rt sc Hvalid)
    as (green & _ & _ & Hcollect).
  eexists. split; [exact Hcollect|]. fold ps.
  rewrite keys_assign_all_nil, map_fst_writes.
  split; [|split].
  - rewrite elem_of_first_occurrences. apply list_elem_of_here.
  - intros p Hp Himage. rewrite elem_of_first_occurrences.
    apply list_elem_of_further, list_elem_of_In, in_map, list_elem_of_In.
    apply elem_of_with_image. split; assumption.
  - intros k Hk. rewrite elem_of_first_occurrences, elem_of_cons in Hk.
    destruct Hk as [->|Hk]; [left; reflexivity|].
    right. apply list_elem_of_In, in_map_iff in Hk as (p & Hname & Hp).
    apply list_elem_of_In, elem_of_with_image in Hp as [Himage Hp].
    exists p. auto.
Qed.

Lemma collect_image_digests_keys_witness :
  exists digests,
    collect_image_digests rt_local sc_judge_idle = Ok digests
    /\ u "green_agent" ∈ keys digests
    /\ u "judge" ∈ keys digests
    /\ u "idle" ∉ keys digests.
Proof.
  destruct (collect_image_digests_keys rt_local sc_judge_idle
              ltac:(vm_compute; reflexivity))
    as (digests & Hcollect & Hgreen & Hnamed & Honly).
  exists digests. split; [exact Hcollect|]. split; [exact Hgreen|]. split.
  - apply (Hnamed (participant "judge" "local-build:latest")).
    + apply list_elem_of_here.
    + vm_compute. discriminate.
  - intros Hidle. destruct (Honly _ Hidle) as [Heq | (p & Hp & Himage & Hname)].
    + vm_compute in Heq. discriminate.
    + cbn in Hp. apply elem_of_cons in Hp as [-> | Hp].
      * vm_compute in Hname. discriminate.
      * apply list_elem_of_singleton in Hp as ->. apply Himage.
        vm_compute. reflexivity.
Defined.

(** The assignments of a participant list split at an entry with an image. *)
Lemma writes_split (rt : runtime) (green : table) (ps1 : list table)
    (p : table) (ps2 : list table) :
  image_of p <> [] ->
  writes rt green (ps1 ++ p :: ps2) =
    ((u "green_agent", resolved rt (image_of green))
     :: map (fun p => (name_of p, resolved rt (image_of p))) (with_image ps1))
    ++ (name_of p, resolved rt (image_of p))
    :: map (fun p => (name_of p, resolved rt (image_of p))) (with_image ps2).
Proof.
  intros Himage. unfold writes, with_image.
  rewrite filter_app, filter_cons_True by exact Himage.
  rewrite map_app. reflexivity.
Qed.

(** Later entries that do not assign to [k]. *)
Lemma writes_other (rt : runtime) (k : str) (ps : list table) :
  Forall (fun p => image_of p <> [] -> name_of p <> k) ps ->
  Forall (fun w : str * str => w.1 <> k)
    (map (fun p => (name_of p, resolved rt (image_of p))) (with_image ps)).
Proof.
  intros Hps. apply Forall_forall. intros w Hw.
  apply list_elem_of_In, in_map_iff in Hw as (p & <- & Hp).
  apply list_elem_of_In, elem_of_with_image in Hp as [Himage Hp].
  rewrite Forall_forall in Hps. exact (Hps p Hp Himage).
Qed.

(** The value under the name of an entry with an image that no later entry
    assigns to again. *)
Lemma collect_image_digests_last (rt : runtime) (sc : Scenario)
    (ps1 : list table) (p : table) (ps2 : list table) :
  valid_scenario sc = true ->
  participants sc = Some (ps1 ++ p :: ps2) ->
  image_of p <> [] ->
  Forall (fun q => image_of q <> [] -> name_of q <> name_of p) ps2 ->
  exists digests digest,
    collect_image_digests rt sc = Ok digests
    /\ get_image_digest rt (image_of p) = Ok digest
    /\ get digests (name_of p) = Some digest.
Proof.
  intros Hvalid Hps Himage Hlast.
  destruct (collect_image_digests_valid rt sc Hvalid)
    as (green & _ & _ & Hcollect).
  rewrite Hps in Hcollect. cbn [from_option id] in Hcollect.
  exists (assign_all [] (writes rt green (ps1 ++ p :: ps2))),
    (resolved rt (image_of p)).
  split; [exact Hcollect|]. split.
  - apply get_image_digest_resolved.
    unfold valid_scenario in Hvalid. rewrite Hps in Hvalid.
    apply andb_prop in Hvalid as [_ Hall]. cbn [from_option id] in Hall.
    rewrite forallb_app in Hall. apply andb_prop in Hall as [_ Hall].
    cbn [forallb] in Hall. apply andb_prop in Hall as [Hp _].
    exact (proj2 (proj2 (valid_participant_fields p Hp))).
  - rewrite (writes_split rt green ps1 p ps2 Himage).
    apply get_assign_all_last, writes_other, Hlast.
Qed.

(** C4: when two participant entries share a name and both have a non-empty
    image, the mapping holds under that name the digest of the later entry
    (the last entry to assign to the name); the earlier digest is
    overwritten and nothing is raised. *)
Theorem collect_image_digests_last_write_wins (rt : runtime) (sc : Scenario)
    (ps1 : list table) (earlier : table) (ps2 : list table) (later : table)
    (ps3 : list table) :
  valid_scenario sc = true ->
  participants sc = Some (ps1 ++ earlier :: ps2 ++ later :: ps3) ->
  name_of earlier = name_of later ->
  image_of earlier <> [] ->
  image_of later <> [] ->
  Forall (fun q => image_of q <> [] -> name_of q <> name_of later) ps3 ->
  exists digests digest,
    collect_image_digests rt sc = Ok digests
    /\ get_image_digest rt (image_of later) = Ok digest
    /\ get digests (name_of earlier) = Some digest.
Proof.
  intros Hvalid Hps Hname _ Himage Hlast. rewrite Hname.
  apply (collect_image_digests_last rt sc (ps1 ++ earlier :: ps2) later ps3);
    try assumption.
  rewrite Hps, <- app_assoc. reflexivity.
Qed.

Lemma collect_image_digests_last_write_wins_witness :
  exists digests,
    collect_image_digests rt_local sc_two_judges = Ok digests
    /\ get digests (u "judge") = Some (u "sha256:deadbeef").
Proof.
  destruct (collect_image_digests_last_write_wins rt_local sc_two_judges
              [] (participant "judge" "old:1") [participant "idle" ""]
              (participant "judge" "local-build:latest") []
              ltac:(vm_compute; reflexivity) eq_refl
              ltac:(vm_compute; reflexivity)
              ltac:(vm_compute; discriminate)
              ltac:(vm_compute; discriminate)
              (Forall_nil_2 _))
    as (digests & digest & Hcollect & Hdigest & Hget).
  exists digests. split; [exact Hcollect|].
  vm_compute in Hdigest. injection Hdigest as <-.
  vm_compute in Hget. vm_compute. exact Hget.
Defined.

(** C7: the mapping is built in a fixed insertion order.  Its keys are the
    first occurrences of [green_agent] followed by the names of the
    participants with a non-empty image, in configuration order; so
    [green_agent] is the first key, and when these names are distinct the
    keys are exactly that sequence. *)
Theorem collect_image_digests_order (rt : runtime) (sc : Scenario) :
  valid_scenario sc = true ->
  let inserted :=
    u "green_agent" :: map name_of (with_image (default [] (participants sc))) in
  exists digests,
    collect_image_digests rt sc = Ok digests
    /\ keys digests = first_occurrences inserted
    /\ head (keys digests) = Some (u "green_agent")
    /\ (NoDup inserted -> keys digests = inserted).
Proof.
  intros Hvalid inserted.
  destruct (collect_image_digests_valid rt sc Hvalid)
    as (green & _ & _ & Hcollect).
  eexists. split; [exact Hcollect|].
  rewrite keys_assign_all_nil, map_fst_writes. fold inserted.
  split; [reflexivity|]. split; [reflexivity|].
  apply first_occurrences_NoDup.
Qed.

Lemma collect_image_digests_order_witness :
  exists digests,
    collect_image_digests rt_local sc_two_judges = Ok digests
    /\ keys digests = [u "green_agent"; u "judge"].
Proof.
  destruct (collect_image_digests_order rt_local sc_two_judges
              ltac:(vm_compute; reflexivity))
    as (digests & Hcollect & Hkeys & _).
  exists digests. split; [exact Hcollect|].
  rewrite Hkeys. vm_compute. reflexivity.
Defined.

(** C9: a participant entry named [green_agent] with a non-empty image (the
    last such entry) overwrites the green agent's own digest: the mapping
    holds the digest of the participant's image under [green_agent]. *)
Theorem collect_image_digests_green_overwritten (rt : runtime) (sc : Scenario)
    (ps1 : list table) (p : table) (ps2 : list table) :
  valid_scenario sc = true ->
  participants sc = Some (ps1 ++ p :: ps2) ->
  name_of p = u "green_agent" ->
  image_of p <> [] ->
  Forall (fun q => image_of q <> [] -> name_of q <> u "green_agent") ps2 ->
  exists digests digest,
    collect_image_digests rt sc = Ok digests
    /\ get_image_digest rt (image_of p) = Ok digest
    /\ get digests (u "green_agent") = Some digest.
Proof.
  intros Hvalid Hps Hname Himage Hlast. rewrite <- Hname in Hlast |- *.
  exact (collect_image_digests_last rt sc ps1 p ps2 Hvalid Hps Himage Hlast).
Qed.

Lemma collect_image_digests_green_overwritten_witness :
  resolved rt_local (u "registry.example/app:1.0")
    = u "unknown:registry.example/app:1.0"
  /\ exists digests,
       collect_image_digests rt_local sc_green_participant = Ok digests
       /\ get digests (u "green_agent") = Some (u "sha256:deadbeef").
Proof.
  split; [vm_compute; reflexivity|].
  destruct (collect_image_digests_green_overwritten rt_local
              sc_green_participant
              [participant "judge" "old:1"]
              (participant "green_agent" "local-build:latest") []
              ltac:(vm_compute; reflexivity) eq_refl
              ltac:(vm_compute; reflexivity)
              ltac:(vm_compute; discriminate)
              (Forall_nil_2 _))
    as (digests & digest & Hcollect & Hdigest & Hget).
  exists digests. split; [exact Hcollect|].
  vm_compute in Hdigest. injection Hdigest as <-.
  vm_compute in Hget. vm_compute. exact Hget.
Defined.

(** C10: the skip rule is for participants only.  When [green_agent.image]
    is the empty string the collector still hands it to the resolver, and
    the mapping contains the key [green_agent]; unless a participant entry
    named [green_agent] assigns to it again, it is bound to what the
    resolver returns for the empty reference. *)
Theorem collect_image_digests_green_blank (rt : runtime) (sc : Scenario)
    (green : table) :
  valid_scenario sc = true ->
  green_agent sc = Some green ->
  green !! u "image" = Some [] ->
  exists digests digest,
    collect_image_digests rt sc = Ok digests
    /\ get_image_digest rt [] = Ok digest
    /\ u "green_agent" ∈ keys digests
    /\ (Forall (fun q => image_of q <> [] -> name_of q <> u "green_agent")
          (default [] (participants sc)) ->
        get digests (u "green_agent") = Some digest).
Proof.
  intros Hvalid Hgreen Himage.
  destruct (collect_image_digests_valid rt sc Hvalid)
    as (green' & Hgreen' & _ & Hcollect).
  assert (green' = green) as -> by congruence.
  assert (image_of green = []) as Hblank.
  { unfold image_of. rewrite Himage. reflexivity. }
  eexists. exists (resolved rt []). split; [exact Hcollect|].
  split; [apply get_image_digest_resolved; reflexivity|]. split.
  - rewrite keys_assign_all_nil, map_fst_writes. apply list_elem_of_here.
  - intros Hothers. unfold writes. rewrite Hblank.
    apply (get_assign_all_last [] []), writes_other, Hothers.
Qed.

Lemma collect_image_digests_green_blank_witness :
  exists digests,
    collect_image_digests rt_local sc_green_blank = Ok digests
    /\ get digests (u "green_agent") = Some (u "unknown:").
Proof.
  destruct (collect_image_digests_green_blank rt_local sc_green_blank
              {[ u "image" := [] ]}
              ltac:(vm_compute; reflexivity) eq_refl
              ltac:(vm_compute; reflexivity))
    as (digests & digest & Hcollect & Hdigest & _ & Hget).
  exists digests. split; [exact Hcollect|].
  vm_compute in Hdigest. injection Hdigest as <-.
  apply Hget. apply Forall_cons. split; [|apply Forall_nil_2].
  intros _. vm_compute. discriminate.
Defined.

(** The loop stops with an exception at an entry without an [image] field,
    unless it stopped before. *)
Lemma for_each_missing_image (rt : runtime) (ps1 : list table) (p : table)
    (ps2 : list table) (digests : dict str) :
  p !! u "image" = None ->
  exists e, for_each (collect_participant rt) (ps1 ++ p :: ps2) digests = Raise e.
Proof.
  intros Himage. revert digests. induction ps1 as [|q ps1 IH]; intros digests.
  - cbn [app for_each]. unfold collect_participant, getitem. rewrite Himage.
    destruct (p !! u "name"); eexists; reflexivity.
  - cbn [app for_each].
    destruct (collect_participant rt digests q) as [digests'|e].
    + rewrite bind_Ok. apply IH.
    + exists e. reflexivity.
Qed.




(** ** main *)

(** C6: when the path given as [--scenario] does not exist, [main] prints
    the line [Error: <path> not found] on standard output, leaves standard
    error untouched, ends the process with status 1 and writes no file. *)
Theorem main_scenario_not_found (tomli_loads : str -> result Scenario)
    (rt : runtime) (args : Namespace) (w : world) :
  fs w !! scenario args = None ->
  let (w', outcome) := main tomli_loads rt args w in
  sys_stdout w' =
    sys_stdout w ++ u "Error: " ++ scenario args ++ u " not found" ++ [10]
  /\ sys_stderr w' = sys_stderr w
  /\ outcome = Raise (SystemExit 1)
  /\ exit_status outcome = 1%Z
  /\ fs w' = fs w.
Proof.
  intros Hmissing. unfold main, mbind, prog_mbind, prog_bind, path_exists.
  rewrite bool_decide_eq_false_2 by (rewrite Hmissing; apply is_Some_None).
  cbn [negb print sys_exit lift sys_stdout sys_stderr fs].
  repeat split. rewrite <- !app_assoc. reflexivity.
Qed.

Lemma main_scenario_not_found_witness :
  let (w', outcome) := main no_toml rt_missing sample_args empty_world in
  sys_stdout w' = u "Error: scenario.toml not found" ++ [10]
  /\ exit_status outcome = 1%Z
  /\ fs w' = ∅.
Proof.
  pose proof (main_scenario_not_found no_toml rt_missing sample_args
                empty_world ltac:(vm_compute; reflexivity)) as Hmain.
  destruct (main no_toml rt_missing sample_args empty_world) as [w' outcome].
  destruct Hmain as (Hout & _ & _ & Hexit & Hfs).
  split; [rewrite Hout; reflexivity|]. split; [exact Hexit | exact Hfs].
Defined.

(** ** Timestamps *)

(** A boolean property checked on every number below a bound. *)
Lemma forallb_below (P : N -> bool) (bound : N) :
  forallb P (map N.of_nat (seq 0 (N.to_nat bound))) = true ->
  forall n, n < bound -> P n = true.
Proof.
  intros Hall n Hn. rewrite forallb_forall in Hall. apply Hall.
  apply in_map_iff. exists (N.to_nat n). split; [apply N2Nat.id|].
  apply in_seq. lia.
Qed.

Lemma zero_padded_2 (n : N) : n <= 99 -> two_digits (zero_padded 2 n) = true.
Proof.
  intros Hn.
  apply (forallb_below (fun n => two_digits (zero_padded 2 n)) 100);
    [vm_compute; reflexivity | lia].
Qed.

Lemma zero_padded_4 (n : N) : n <= 9999 -> four_digits (zero_padded 4 n) = true.
Proof.
  intros Hn.
  apply (forallb_below (fun n => four_digits (zero_padded 4 n)) 10000);
    [vm_compute; reflexivity | lia].
Qed.

Lemma is_digit_not_plus (c : N) : is_digit c = true -> c <> 43.
Proof. intros Hc ->. discriminate. Qed.

(** The UTC offset at the end of a string without [+] is the one occurrence
    that [replace] rewrites. *)
Lemma replace_utc_offset (s : str) :
  Forall (fun c => c <> 43) s ->
  replace (u "+00:00") (u "Z") (s ++ u "+00:00") = s ++ u "Z".
Proof.
  unfold replace. change (u "+00:00") with [43; 48; 48; 58; 48; 48].
  induction 1 as [|c s Hc _ IH]; [vm_compute; reflexivity|].
  cbn [app replace_from startswith].
  rewrite (proj2 (N.eqb_neq 43 c)) by congruence.
  cbn [andb]. rewrite IH. reflexivity.
Qed.

(** The timestamp of a valid instant has the shape
    [YYYY-MM-DDTHH:MM:SSZ]. *)
Lemma timestamp_fullmatch (now : datetime) :
  valid_datetime now = true ->
  fullmatch timestamp_re (timestamp now) = true.
Proof.
  unfold valid_datetime. rewrite !andb_true_iff, !N.leb_le.
  intros (((((((((_ & Hyear) & _) & Hmonth) & _) & Hday) & Hhour) & Hminute)
            & Hsecond) & _).
  unfold timestamp, isoformat_seconds.
  pose proof (zero_padded_4 (year now) Hyear) as Hy.
  pose proof (zero_padded_2 (month now) ltac:(lia)) as Hmo.
  pose proof (zero_padded_2 (day now) ltac:(lia)) as Hd.
  pose proof (zero_padded_2 (hour now) ltac:(lia)) as Hh.
  pose proof (zero_padded_2 (minute now) ltac:(lia)) as Hmi.
  pose proof (zero_padded_2 (second now) ltac:(lia)) as Hs.
  destruct (zero_padded 4 (year now)) as [|y1 [|y2 [|y3 [|y4 [|]]]]];
    try discriminate.
  destruct (zero_padded 2 (month now)) as [|m1 [|m2 [|]]]; try discriminate.
  destruct (zero_padded 2 (day now)) as [|d1 [|d2 [|]]]; try discriminate.
  destruct (zero_padded 2 (hour now)) as [|h1 [|h2 [|]]]; try discriminate.
  destruct (zero_padded 2 (minute now)) as [|i1 [|i2 [|]]]; try discriminate.
  destruct (zero_padded 2 (second now)) as [|s1 [|s2 [|]]]; try discriminate.
  cbn [two_digits four_digits] in *.
  rewrite !andb_true_iff in *.
  destruct Hy as (((Hy1 & Hy2) & Hy3) & Hy4), Hmo as (Hm1 & Hm2),
    Hd as (Hd1 & Hd2), Hh as (Hh1 & Hh2), Hmi as (Hi1 & Hi2),
    Hs as (Hs1 & Hs2).
  change ([y1; y2; y3; y4] ++ u "-" ++ [m1; m2] ++ u "-" ++ [d1; d2] ++ u "T"
          ++ [h1; h2] ++ u ":" ++ [i1; i2] ++ u ":" ++ [s1; s2] ++ u "+00:00")
    with ([y1; y2; y3; y4; 45; m1; m2; 45; d1; d2; 84; h1; h2; 58; i1; i2;
           58; s1; s2] ++ u "+00:00").
  rewrite replace_utc_offset
    by (repeat constructor; solve [by apply is_digit_not_plus | discriminate]).
  change (atom_matches Digit y1 && (atom_matches Digit y2
          && (atom_matches Digit y3 && (atom_matches Digit y4
          && (true && (atom_matches Digit m1 && (atom_matches Digit m2
          && (true && (atom_matches Digit d1 && (atom_matches Digit d2
          && (true && (atom_matches Digit h1 && (atom_matches Digit h2
          && (true && (atom_matches Digit i1 && (atom_matches Digit i2
          && (true && (atom_matches Digit s1 && (atom_matches Digit s2
          && (true && true))))))))))))))))))) = true).
  cbn [atom_matches].
  rewrite Hy1, Hy2, Hy3, Hy4, Hm1, Hm2, Hd1, Hd2, Hh1, Hh2, Hi1, Hi2, Hs1, Hs2.
  reflexivity.
Qed.

(** ** JSON: string literals read back *)

Lemma hexval_hexdigit (d : N) : d < 16 -> hexval (hexdigit d) = Some d.
Proof.
  intros Hd.
  apply (forallb_below
           (fun d => bool_decide (hexval (hexdigit d) = Some d)) 16) in Hd;
    [|vm_compute; reflexivity].
  apply bool_decide_eq_true in Hd. exact Hd.
Qed.

(** The four hexadecimal digits of a number below [0x10000] add up to it. *)
Lemma hex4_digits (n : N) :
  n < 65536 ->
  ((n / 4096 mod 16 * 16 + n / 256 mod 16) * 16 + n / 16 mod 16) * 16
  + n mod 16 = n.
Proof.
  intros Hn.
  pose proof (N.div_mod n 16 ltac:(lia)) as H0.
  pose proof (N.div_mod (n / 16) 16 ltac:(lia)) as H1.
  pose proof (N.div_mod (n / 256) 16 ltac:(lia)) as H2.
  replace (n / 16 / 16) with (n / 256) in H1
    by (rewrite N.Div0.div_div; reflexivity).
  replace (n / 256 / 16) with (n / 4096) in H2
    by (rewrite N.Div0.div_div; reflexivity).
  assert (n / 4096 < 16) as H3 by (apply N.Div0.div_lt_upper_bound; lia).
  rewrite (N.mod_small (n / 4096) 16 H3). lia.
Qed.

Lemma parse_hex4_hex4 (n : N) (rest : str) :
  n < 65536 -> parse_hex4 (hex4 n ++ rest) = Some (n, rest).
Proof.
  intros Hn. unfold hex4, parse_hex4. cbn [app].
  rewrite !hexval_hexdigit by (apply N.mod_lt; lia).
  cbn [mbind option_bind]. rewrite (hex4_digits n Hn). reflexivity.
Qed.

(** One step of the scanner on an escape of the basic plane. *)
Lemma scanstring_fuel_bmp (f : nat) (s2 : str) (uni : N) (s3 : str) :
  parse_hex4 s2 = Some (uni, s3) ->
  is_high_surrogate uni = false ->
  scanstring_fuel (S f) (92 :: 117 :: s2) =
    '(r, rest) ← scanstring_fuel f s3; Some (uni :: r, rest).
Proof.
  intros Hhex Hhigh. cbn [scanstring_fuel].
  change (92 =? 34) with false. change (92 =? 92) with true.
  change (117 =? 117) with true. cbv iota.
  rewrite Hhex. cbn [mbind option_bind]. rewrite Hhigh. reflexivity.
Qed.

(** One step of the scanner on a surrogate pair. *)
Lemma scanstring_fuel_pair (f : nat) (s2 : str) (hi lo : N) (s4 s5 : str) :
  parse_hex4 s2 = Some (hi, 92 :: 117 :: s4) ->
  parse_hex4 s4 = Some (lo, s5) ->
  is_high_surrogate hi = true ->
  is_low_surrogate lo = true ->
  scanstring_fuel (S f) (92 :: 117 :: s2) =
    '(r, rest) ← scanstring_fuel f s5;
    Some (65536 + (hi - 55296) * 1024 + (lo - 56320) :: r, rest).
Proof.
  intros Hhi Hlo Hhigh Hlow. cbn [scanstring_fuel].
  change (92 =? 34) with false. change (92 =? 92) with true.
  change (117 =? 117) with true. cbv iota.
  rewrite Hhi. cbn [mbind option_bind]. rewrite Hhigh, Hlo.
  cbn [mbind option_bind]. rewrite Hlow. reflexivity.
Qed.

(** One step of the scanner on a character that stands for itself. *)
Lemma scanstring_fuel_plain (f : nat) (c : N) (s1 : str) :
  c <> 34 -> c <> 92 -> 32 <= c ->
  scanstring_fuel (S f) (c :: s1) =
    '(r, rest) ← scanstring_fuel f s1; Some (c :: r, rest).
Proof.
  intros H34 H92 H32. cbn [scanstring_fuel].
  rewrite (proj2 (N.eqb_neq c 34)), (proj2 (N.eqb_neq c 92)) by assumption.
  rewrite (proj2 (N.ltb_ge c 32)) by assumption. reflexivity.
Qed.

(** The scanner undoes the escape of one scalar value. *)
Lemma scanstring_fuel_escape_char (f : nat) (c : N) (rest : str) :
  is_scalar c = true ->
  scanstring_fuel (S f) (escape_char c ++ rest) =
    '(r, rest') ← scanstring_fuel f rest; Some (c :: r, rest').
Proof.
  unfold is_scalar. rewrite andb_true_iff, negb_true_iff, N.ltb_lt.
  intros [Hmax Hsurrogate].
  assert (c < 55296 \/ 57343 < c) as Houtside.
  { apply andb_false_iff in Hsurrogate as [Hc%N.leb_gt|Hc%N.leb_gt]; lia. }
  clear Hsurrogate. unfold escape_char.
  destruct (N.eqb_spec c 34) as [->|H34]; [reflexivity|].
  destruct (N.eqb_spec c 92) as [->|H92]; [reflexivity|].
  destruct (N.eqb_spec c 10) as [->|H10]; [reflexivity|].
  destruct (N.eqb_spec c 13) as [->|H13]; [reflexivity|].
  destruct (N.eqb_spec c 9) as [->|H9]; [reflexivity|].
  destruct (N.eqb_spec c 12) as [->|H12]; [reflexivity|].
  destruct (N.eqb_spec c 8) as [->|H8]; [reflexivity|].
  destruct ((32 <=? c) && (c <=? 126)) eqn:Hprintable.
  { apply andb_true_iff in Hprintable as [H32%N.leb_le _].
    apply (scanstring_fuel_plain f c rest); assumption. }
  destruct (N.ltb_spec c 65536) as [Hbmp|Hastral].
  - change ((u "\u" ++ hex4 c) ++ rest) with (92 :: 117 :: (hex4 c ++ rest)).
    apply scanstring_fuel_bmp; [apply parse_hex4_hex4; exact Hbmp|].
    unfold is_high_surrogate. apply andb_false_iff.
    destruct Houtside; [left | right]; apply N.leb_gt; lia.
  - cbv zeta.
    assert (c - 65536 < 1048576) as Hv by lia.
    assert (c = 65536 + (c - 65536)) as Hc by lia.
    pose proof (N.div_mod (c - 65536) 1024 ltac:(lia)) as Hdivmod.
    assert ((c - 65536) / 1024 < 1024) as Hhi
        by (apply N.Div0.div_lt_upper_bound; lia).
    assert ((c - 65536) mod 1024 < 1024) as Hlo by (apply N.mod_lt; lia).
    revert Hc Hdivmod Hhi Hlo.
    generalize (c - 65536) ((c - 65536) / 1024) ((c - 65536) mod 1024).
    intros v hi lo Hc Hdivmod Hhi Hlo.
    change ((u "\u" ++ hex4 (55296 + hi) ++ u "\u" ++ hex4 (56320 + lo))
            ++ rest)
      with (92 :: 117 :: (hex4 (55296 + hi)
                            ++ 92 :: 117 :: (hex4 (56320 + lo) ++ rest))).
    rewrite (scanstring_fuel_pair f _ (55296 + hi) (56320 + lo)
               (hex4 (56320 + lo) ++ rest) rest).
    + replace (65536 + (55296 + hi - 55296) * 1024 + (56320 + lo - 56320))
        with c by lia.
      reflexivity.
    + apply parse_hex4_hex4. lia.
    + apply parse_hex4_hex4. lia.
    + unfold is_high_surrogate. apply andb_true_iff.
      split; apply N.leb_le; lia.
    + unfold is_low_surrogate. apply andb_true_iff.
      split; apply N.leb_le; lia.
Qed.

Lemma escape_char_length (c : N) : (1 <= length (escape_char c))%nat.
Proof.
  unfold escape_char.
  repeat match goal with
         | |- context [if ?b then _ else _] => destruct b
         end; cbn; lia.
Qed.

Lemma flat_map_escape_length (s : str) :
  (length s <= length (flat_map escape_char s))%nat.
Proof.
  induction s as [|c s IH]; cbn [flat_map length]; [lia|].
  rewrite length_app. pose proof (escape_char_length c). lia.
Qed.

Lemma scanstring_fuel_encoded (s rest : str) (fuel : nat) :
  scalar_str s = true ->
  (length s < fuel)%nat ->
  scanstring_fuel fuel (flat_map escape_char s ++ 34 :: rest) = Some (s, rest).
Proof.
  revert fuel. induction s as [|c s IH]; intros fuel Hscalar Hfuel.
  - destruct fuel as [|f]; [cbn in Hfuel; lia|]. reflexivity.
  - destruct fuel as [|f]; [cbn in Hfuel; lia|].
    cbn [scalar_str forallb] in Hscalar.
    apply andb_true_iff in Hscalar as [Hc Hs].
    cbn [flat_map]. rewrite <- app_assoc.
    rewrite (scanstring_fuel_escape_char f c _ Hc).
    rewrite (IH f Hs) by (cbn in Hfuel; lia). reflexivity.
Qed.

(** The scanner reads back the body of an encoded string literal. *)
Lemma scanstring_encoded (s rest : str) :
  scalar_str s = true ->
  scanstring (flat_map escape_char s ++ 34 :: rest) = Some (s, rest).
Proof.
  intros Hscalar. unfold scanstring.
  apply scanstring_fuel_encoded; [exact Hscalar|].
  rewrite length_app. pose proof (flat_map_escape_length s). lia.
Qed.

(** A string literal is read back as the string it encodes. *)
Lemma parse_value_string (fuel : nat) (s rest : str) :
  scalar_str s = true ->
  parse_value (S fuel) (encode_basestring_ascii s ++ rest)
  = Some (JString s, rest).
Proof.
  intros Hscalar. unfold encode_basestring_ascii.
  change (([34] ++ flat_map escape_char s ++ [34]) ++ rest)
    with (34 :: ((flat_map escape_char s ++ [34]) ++ rest)).
  rewrite <- app_assoc. cbn [parse_value app].
  rewrite (scanstring_encoded s rest Hscalar). reflexivity.
Qed.

(** ** JSON: the provenance document read back *)

Lemma encode_then (s rest : str) :
  encode_basestring_ascii s ++ rest = 34 :: literal_then s rest.
Proof.
  unfold encode_basestring_ascii, literal_then.
  cbn [app]. rewrite <- app_assoc. reflexivity.
Qed.

Lemma scanstring_literal_then (s rest : str) :
  scalar_str s = true -> scanstring (literal_then s rest) = Some (s, rest).
Proof. apply scanstring_encoded. Qed.

(** The text of the members after the first, in the shape the parser
    walks. *)
Lemma dumps_items_then (d : dict str) (rest : str) :
  (fix items (ms : dict json) : str :=
     match ms with
     | [] => []
     | (k, v) :: ms' =>
         u "," ++ newline_indent 2
         ++ encode_basestring_ascii k ++ u ": " ++ dumps 2 v
         ++ items ms'
     end) (map (fun kv => (kv.1, JString kv.2)) d) ++ rest
  = items_then d rest.
Proof.
  induction d as [|[k v] d IH]; [reflexivity|].
  cbn [map fst snd dumps items_then]. rewrite <- !app_assoc, IH.
  rewrite !encode_then. reflexivity.
Qed.

(** The text of the digest object, in the shape the parser walks. *)
Lemma dumps_digests_then (d : dict str) (rest : str) :
  dumps 1 (digests_json d) ++ rest = digests_then d rest.
Proof.
  destruct d as [|[k0 v0] d]; [reflexivity|].
  unfold digests_json, digests_then.
  cbn [map dumps fst snd]. rewrite <- !app_assoc, dumps_items_then.
  rewrite !encode_then. reflexivity.
Qed.

(** One member read by [parse_members]: the key, the colon, the value, and
    what the character after the value decides. *)
Lemma parse_members_step (f : nat) (acc : dict json) (s : str) (key : str)
    (s2 : str) (v : json) (s3 : str) :
  scanstring s = Some (key, 58 :: 32 :: s2) ->
  skip_ws s2 = s2 ->
  parse_value f s2 = Some (v, s3) ->
  parse_members (S f) acc s =
    match skip_ws s3 with
    | 125 :: rest => Some (JObject (setitem acc key v), rest)
    | 44 :: s4 =>
        match skip_ws s4 with
        | 34 :: s5 => parse_members f (setitem acc key v) s5
        | _ => None
        end
    | _ => None
    end.
Proof.
  intros Hkey Hws Hvalue. cbn [parse_members]. rewrite Hkey.
  cbn [mbind option_bind].
  change (skip_ws (58 :: 32 :: s2)) with (58 :: 32 :: s2). cbv iota.
  change (skip_ws (32 :: s2)) with (skip_ws s2). rewrite Hws, Hvalue.
  reflexivity.
Qed.

Lemma parse_value_literal_then (f : nat) (s rest : str) :
  scalar_str s = true ->
  parse_value (S f) (34 :: literal_then s rest) = Some (JString s, rest).
Proof.
  intros Hscalar. rewrite <- encode_then. apply parse_value_string, Hscalar.
Qed.

(** The members of the digest object are read back in order. *)
Lemma parse_members_items (d : dict str) (fuel : nat) (acc : dict json)
    (k v rest : str) :
  scalar_str k = true ->
  scalar_str v = true ->
  scalar_digests d = true ->
  (length d + 2 <= fuel)%nat ->
  parse_members fuel acc
    (literal_then k
       (58 :: 32 :: 34
        :: literal_then v (items_then d (10 :: 32 :: 32 :: 125 :: rest))))
  = Some (JObject
            (assign_all acc
               ((k, JString v) :: map (fun kv => (kv.1, JString kv.2)) d)),
          rest).
Proof.
  revert fuel acc k v. induction d as [|[k' v'] d IH];
    intros fuel acc k v Hk Hv Hd Hfuel;
    (destruct fuel as [|[|f]]; [cbn in Hfuel; lia ..|]).
  - rewrite (parse_members_step (S f) acc _ k _ (JString v) _
               (scanstring_literal_then k _ Hk) eq_refl
               (parse_value_literal_then f v _ Hv)).
    reflexivity.
  - rewrite (parse_members_step (S f) acc _ k _ (JString v) _
               (scanstring_literal_then k _ Hk) eq_refl
               (parse_value_literal_then f v _ Hv)).
    cbn [scalar_digests forallb fst snd] in Hd.
    apply andb_true_iff in Hd as [[Hk' Hv']%andb_true_iff Hd].
    change (parse_members (S f) (setitem acc k (JString v))
              (literal_then k'
                 (58 :: 32 :: 34
                  :: literal_then v'
                       (items_then d (10 :: 32 :: 32 :: 125 :: rest))))
            = Some (JObject
                      (assign_all (setitem acc k (JString v))
                         ((k', JString v')
                          :: map (fun kv => (kv.1, JString kv.2)) d)),
                    rest)).
    apply IH; [assumption ..|]. cbn [length] in Hfuel. lia.
Qed.

(** Assignments to keys that are new and distinct append to the
    dictionary. *)
Lemma assign_all_fresh {V} (acc : dict V) (ws : list (str * V)) :
  NoDup (keys acc ++ map fst ws) -> assign_all acc ws = acc ++ ws.
Proof.
  revert acc. induction ws as [|[k v] ws IH]; intros acc Hnodup.
  - cbn. rewrite app_nil_r. reflexivity.
  - assert (setitem acc k v = acc ++ [(k, v)]) as Hset.
    { cbn [map fst] in Hnodup. apply NoDup_app in Hnodup as (_ & Hfresh & _).
      assert (k ∉ keys acc) as Hk.
      { intros Hin. apply (Hfresh k Hin), list_elem_of_here. }
      clear -Hk. induction acc as [|[k0 v0] acc IHacc]; [reflexivity|].
      cbn in *. apply not_elem_of_cons in Hk as [Hne Hk].
      rewrite decide_False by congruence. rewrite (IHacc Hk). reflexivity. }
    rewrite assign_all_cons, Hset, IH.
    + rewrite <- app_assoc. reflexivity.
    + unfold keys in *. rewrite map_app. cbn [map fst] in *.
      rewrite <- app_assoc. exact Hnodup.
Qed.

Lemma keys_digests_json_members (d : dict str) :
  map fst (map (fun kv : str * str => (kv.1, JString kv.2)) d) = keys d.
Proof. unfold keys. rewrite map_map. reflexivity. Qed.

(** The digest object is read back as the mapping. *)
Lemma parse_value_digests (d : dict str) (fuel : nat) (rest : str) :
  NoDup (keys d) ->
  scalar_digests d = true ->
  (length d + 2 <= fuel)%nat ->
  parse_value fuel (digests_then d rest) = Some (digests_json d, rest).
Proof.
  intros Hnodup Hscalar Hfuel.
  destruct fuel as [|f]; [lia|].
  destruct d as [|[k v] d]; [reflexivity|].
  cbn [scalar_digests forallb fst snd] in Hscalar.
  apply andb_true_iff in Hscalar as [[Hk Hv]%andb_true_iff Hd].
  unfold digests_then.
  change (parse_value (S f) (123 :: 10 :: 32 :: 32 :: 32 :: 32 :: 34 :: ?s))
    with (parse_members f [] s).
  rewrite (parse_members_items d f [] k v rest Hk Hv Hd)
    by (cbn [length] in Hfuel; lia).
  rewrite assign_all_fresh; [reflexivity|].
  change (NoDup (map fst (map (fun kv : str * str => (kv.1, JString kv.2))
                            ((k, v) :: d)))).
  rewrite keys_digests_json_members. exact Hnodup.
Qed.

Lemma skip_ws_digests_then (d : dict str) (rest : str) :
  skip_ws (digests_then d rest) = digests_then d rest.
Proof. destruct d as [|[k v] d]; reflexivity. Qed.

(** *** Lengths, for the parser's fuel *)

Lemma literal_then_length (s rest : str) :
  (length rest <= length (literal_then s rest))%nat.
Proof. unfold literal_then. rewrite length_app. cbn [length]. lia. Qed.

Lemma items_then_length (d : dict str) (rest : str) :
  (length d + length rest <= length (items_then d rest))%nat.
Proof.
  induction d as [|[k v] d IH]; cbn [items_then length]; [lia|].
  pose proof (literal_then_length k
                (58 :: 32 :: 34 :: literal_then v (items_then d rest))) as Hk.
  pose proof (literal_then_length v (items_then d rest)) as Hv.
  cbn [length] in Hk. lia.
Qed.

Lemma digests_then_length (d : dict str) (rest : str) :
  (length d + length rest <= length (digests_then d rest))%nat.
Proof.
  destruct d as [|[k v] d]; cbn [digests_then length]; [lia|].
  pose proof (literal_then_length k
                (58 :: 32 :: 34
                 :: literal_then v
                      (items_then d (10 :: 32 :: 32 :: 125 :: rest)))) as Hk.
  pose proof (literal_then_length v
                (items_then d (10 :: 32 :: 32 :: 125 :: rest))) as Hv.
  pose proof (items_then_length d (10 :: 32 :: 32 :: 125 :: rest)) as Hd.
  cbn [length] in Hk, Hd. lia.
Qed.

(** *** The whole document *)

Lemma provenance_members (d : dict str) (now : datetime) :
  provenance d now =
    JObject [(u "image_digests", digests_json d);
             (u "timestamp", JString (timestamp now))].
Proof. reflexivity. Qed.

(** The text [write_provenance] writes, in the shape the parser walks. *)
Lemma dumps_provenance (d : dict str) (now : datetime) :
  dumps 0 (provenance d now) =
    123 :: 10 :: 32 :: 32 :: 34
    :: literal_then (u "image_digests")
         (58 :: 32
          :: digests_then d
               (44 :: 10 :: 32 :: 32 :: 34
                :: literal_then (u "timestamp")
                     (58 :: 32 :: 34
                      :: literal_then (timestamp now) [10; 125]))).
Proof.
  rewrite provenance_members. cbn [dumps]. rewrite <- !app_assoc.
  rewrite !encode_then.
  change (u ": " ++ dumps 1 (digests_json d) ++ ?s)
    with (58 :: 32 :: (dumps 1 (digests_json d) ++ s)).
  rewrite dumps_digests_then. reflexivity.
Qed.

Lemma scalar_str_fullmatch (p : list atom) (s : str) :
  Forall (fun a => match a with Digit => True | Lit c => is_scalar c = true end)
    p ->
  fullmatch p s = true ->
  scalar_str s = true.
Proof.
  intros Hp. revert s. induction Hp as [|a p Ha _ IH]; intros [|c s];
    cbn [fullmatch]; try discriminate; [reflexivity|].
  intros [Hc Hs]%andb_true_iff. cbn [scalar_str forallb].
  apply andb_true_iff. split; [|exact (IH s Hs)].
  destruct a as [|l]; cbn [atom_matches] in Hc.
  - unfold is_digit in Hc. apply andb_true_iff in Hc as [H48%N.leb_le H57%N.leb_le].
    unfold is_scalar. apply andb_true_iff. split.
    + apply N.ltb_lt. lia.
    + apply negb_true_iff, andb_false_iff. left. apply N.leb_gt. lia.
  - apply N.eqb_eq in Hc as ->. exact Ha.
Qed.

Lemma scalar_str_timestamp (now : datetime) :
  valid_datetime now = true -> scalar_str (timestamp now) = true.
Proof.
  intros Hvalid. apply (scalar_str_fullmatch timestamp_re).
  - unfold timestamp_re. cbn. repeat constructor.
  - apply timestamp_fullmatch, Hvalid.
Qed.

(** The document parses back to the provenance record. *)
Lemma loads_dumps_provenance (d : dict str) (now : datetime) :
  valid_datetime now = true ->
  NoDup (keys d) ->
  scalar_digests d = true ->
  loads (dumps 0 (provenance d now)) = Some (provenance d now).
Proof.
  intros Hvalid Hnodup Hscalar.
  pose proof (scalar_str_timestamp now Hvalid) as Hts.
  unfold loads. rewrite dumps_provenance.
  set (tail := 44 :: 10 :: 32 :: 32 :: 34
               :: literal_then (u "timestamp")
                    (58 :: 32 :: 34 :: literal_then (timestamp now) [10; 125])).
  set (body := literal_then (u "image_digests")
                 (58 :: 32 :: digests_then d tail)).
  set (text := 123 :: 10 :: 32 :: 32 :: 34 :: body).
  assert (exists f, length text = S (S (S f)) /\ (length d + 2 <= S (S f))%nat)
    as (f & Hlen & Hfuel).
  { pose proof (literal_then_length (u "image_digests")
                  (58 :: 32 :: digests_then d tail)) as Hbody.
    pose proof (digests_then_length d tail) as Hd. fold body in Hbody.
    cbn [length] in Hbody. exists (length body + 2)%nat.
    unfold text. cbn [length]. lia. }
  change (skip_ws text) with text. rewrite Hlen.
  change (parse_value (S (S (S (S f)))) text)
    with (parse_members (S (S (S f))) [] body).
  rewrite (parse_members_step (S (S f)) [] body (u "image_digests")
             (digests_then d tail) (digests_json d) tail
             (scanstring_literal_then (u "image_digests") _ eq_refl)
             (skip_ws_digests_then d tail)
             (parse_value_digests d (S (S f)) tail Hnodup Hscalar Hfuel)).
  change (skip_ws tail)
    with (44 :: 10 :: 32 :: 32 :: 34
          :: literal_then (u "timestamp")
               (58 :: 32 :: 34 :: literal_then (timestamp now) [10; 125])).
  cbv iota.
  change (skip_ws (10 :: 32 :: 32 :: 34 :: ?s)) with (34 :: s). cbv iota.
  rewrite (parse_members_step (S f) _ _ (u "timestamp") _
             (JString (timestamp now)) [10; 125]
             (scanstring_literal_then (u "timestamp") _ eq_refl) eq_refl
             (parse_value_literal_then f _ _ Hts)).
  reflexivity.
Qed.

(** ** write_provenance *)

(** Dictionaries keep their keys distinct. *)
Lemma setitem_NoDup {V} (d : dict V) (k : str) (v : V) :
  NoDup (keys d) -> NoDup (keys (setitem d k v)).
Proof.
  intros Hd. rewrite keys_setitem. case_decide as Hin; [exact Hd|].
  apply NoDup_app. split; [exact Hd|]. split.
  - intros x Hx ->%list_elem_of_singleton. exact (Hin Hx).
  - apply NoDup_singleton.
Qed.

Lemma for_each_invariant {A S} (P : S -> Prop) (body : S -> A -> result S)
    (l : list A) (s s' : S) :
  (forall s x s', P s -> body s x = Ok s' -> P s') ->
  P s -> for_each body l s = Ok s' -> P s'.
Proof.
  intros Hbody. revert s. induction l as [|x l IH]; intros s Hs.
  - intros [= <-]. exact Hs.
  - cbn [for_each]. destruct (body s x) as [s1|e] eqn:Hstep; [|discriminate].
    rewrite bind_Ok. apply IH. exact (Hbody s x s1 Hs Hstep).
Qed.

(** Every mapping the collector returns has distinct keys. *)
Lemma collect_image_digests_NoDup (rt : runtime) (sc : Scenario)
    (digests : dict str) :
  collect_image_digests rt sc = Ok digests -> NoDup (keys digests).
Proof.
  unfold collect_image_digests.
  destruct (subscript (green_agent sc) (u "green_agent")) as [green|];
    [rewrite bind_Ok | discriminate].
  destruct (getitem green (u "image")) as [green_image|];
    [rewrite bind_Ok | discriminate].
  destruct (get_image_digest rt green_image) as [d|];
    [rewrite bind_Ok | discriminate].
  apply (for_each_invariant (fun digests => NoDup (keys digests))).
  - intros s p s' Hs. unfold collect_participant.
    destruct (getitem p (u "name")) as [name|]; [rewrite bind_Ok | discriminate].
    destruct (getitem p (u "image")) as [image|];
      [rewrite bind_Ok | discriminate].
    destruct (truthy image); [|intros [= <-]; exact Hs].
    destruct (get_image_digest rt image) as [d'|];
      [rewrite bind_Ok | discriminate].
    intros [= <-]. apply setitem_NoDup, Hs.
  - apply setitem_NoDup, NoDup_nil_2.
Qed.

(** C5: the document [write_provenance] writes for a digest mapping (a
    dictionary: distinct keys; strings of Unicode scalar values) parses back
    to an object with exactly the two keys [image_digests], an object equal
    to the mapping, and [timestamp], a string of the shape
    [YYYY-MM-DDTHH:MM:SSZ]. *)
Theorem write_provenance_document (output_path : str)
    (image_digests : dict str) (w : world) :
  valid_datetime (clock w) = true ->
  NoDup (keys image_digests) ->
  scalar_digests image_digests = true ->
  fs w !! output_path <> Some Directory ->
  refused w output_path = None ->
  let (w', outcome) := write_provenance output_path image_digests w in
  outcome = Ok tt
  /\ exists text ts,
       fs w' !! output_path = Some (File text)
       /\ loads text =
            Some (JObject [(u "image_digests", digests_json image_digests);
                           (u "timestamp", JString ts)])
       /\ fullmatch timestamp_re ts = true.
Proof.
  intros Hvalid Hnodup Hscalar Hdir Hrefused.
  unfold write_provenance, mbind, prog_mbind, prog_bind, now_utc, write_text.
  rewrite Hrefused.
  assert (forall (o : option node) (r1 r2 : world * result unit),
             o <> Some Directory ->
             match o with
             | Some Directory => r1
             | _ => r2
             end = r2) as Hmatch.
  { intros [[content|]|] r1 r2 Ho; congruence. }
  rewrite (Hmatch _ _ _ Hdir). split; [reflexivity|].
  exists (dumps 0 (provenance image_digests (clock w))), (timestamp (clock w)).
  split; [cbn [fs]; apply lookup_insert_eq|]. split.
  - rewrite (loads_dumps_provenance _ _ Hvalid Hnodup Hscalar).
    rewrite provenance_members. reflexivity.
  - apply timestamp_fullmatch, Hvalid.
Qed.

Lemma write_provenance_document_witness :
  let (w', outcome) :=
    write_provenance (u "provenance.json") sample_digests empty_world in
  outcome = Ok tt
  /\ exists text,
       fs w' !! u "provenance.json" = Some (File text)
       /\ loads text =
            Some (JObject [(u "image_digests", digests_json sample_digests);
                           (u "timestamp", JString (u "2024-03-07T09:05:00Z"))]).
Proof.
  pose proof (write_provenance_document (u "provenance.json") sample_digests
                empty_world eq_refl
                ltac:(repeat constructor; vm_compute;
                      intros Hin; inversion Hin as [|? ? ? Hin']; inversion Hin')
                eq_refl ltac:(discriminate) eq_refl) as Hdoc.
  destruct (write_provenance (u "provenance.json") sample_digests empty_world)
    as [w' outcome] eqn:Hrun.
  destruct Hdoc as (Hok & text & ts & Hfile & Hloads & _).
  split; [exact Hok|]. exists text. split; [exact Hfile|].
  vm_compute in Hrun. injection Hrun as <- _.
  vm_compute in Hfile. injection Hfile as <-.
  vm_compute. reflexivity.
Defined.

(** * Further properties *)

(** ** The digest resolver *)

(** X1: the resolver consults the runtime through its two inspection
    commands only: two runtimes that answer these two command lines alike
    give the same result, whatever else they do. *)
Theorem get_image_digest_two_commands (rt rt' : runtime) (image : str) :
  rt (repo_digest_cmd image) = rt' (repo_digest_cmd image) ->
  rt (image_id_cmd image) = rt' (image_id_cmd image) ->
  get_image_digest rt image = get_image_digest rt' image.
Proof.
  intros Hrepo Hid.
  unfold get_image_digest, try_repo_digest, subprocess_run.
  rewrite Hrepo, Hid. reflexivity.
Qed.

Lemma get_image_digest_two_commands_witness :
  get_image_digest rt_local (u "local-build:latest")
  = get_image_digest rt_local_busy (u "local-build:latest").
Proof.
  apply get_image_digest_two_commands; vm_compute; reflexivity.
Defined.

(** *** Trimmed output *)

Lemma lstrip_head (s : str) (c : N) :
  head (lstrip s) = Some c -> isspace c = false.
Proof.
  induction s as [|a s IH]; cbn [lstrip]; [discriminate|].
  destruct (isspace a) eqn:Ha; [exact IH|].
  cbn. intros [= <-]. exact Ha.
Qed.

Lemma lstrip_app_one (l : str) (c : N) :
  lstrip (l ++ [c]) =
    match lstrip l with
    | [] => if isspace c then [] else [c]
    | r => r ++ [c]
    end.
Proof.
  induction l as [|a l IH]; cbn [app lstrip]; [reflexivity|].
  destruct (isspace a); [exact IH | reflexivity].
Qed.

(** Trimming on the right keeps the first character of a string that does
    not begin with white space. *)
Lemma rstrip_cons (c : N) (s : str) :
  isspace c = false -> exists r, rstrip (c :: s) = c :: r.
Proof.
  intros Hc. unfold rstrip. cbn [rev]. rewrite lstrip_app_one, Hc.
  destruct (lstrip (rev s)) as [|a r].
  - exists []. reflexivity.
  - exists (rev r ++ [a])%list. rewrite rev_app_distr. reflexivity.
Qed.

Lemma strip_head (s : str) (c : N) :
  head (strip s) = Some c -> isspace c = false.
Proof.
  unfold strip. pose proof (lstrip_head s) as Hhead.
  destruct (lstrip s) as [|a t]; [discriminate|].
  specialize (Hhead a eq_refl).
  destruct (rstrip_cons a t Hhead) as [r ->]. cbn. intros [= <-]. exact Hhead.
Qed.

Lemma last_rev (l : str) : last (rev l) = head l.
Proof.
  destruct l as [|a l]; [reflexivity|]. cbn [rev]. apply last_snoc.
Qed.

Lemma strip_last (s : str) (c : N) :
  last (strip s) = Some c -> isspace c = false.
Proof.
  unfold strip, rstrip. rewrite last_rev. apply lstrip_head.
Qed.

(** X2: a digest taken from the runtime's output is trimmed.  When the
    resolver does not fall back to the sentinel, the string it returns
    neither begins nor ends with white space. *)
Theorem get_image_digest_trimmed (rt : runtime) (image : str) :
  has_nul image = false ->
  let r1 := rt (repo_digest_cmd image) in
  let r2 := rt (image_id_cmd image) in
  returncode r2 = 0%Z \/ (returncode r1 = 0%Z /\ strip (stdout r1) <> []) ->
  exists digest,
    get_image_digest rt image = Ok digest
    /\ (forall c, head digest = Some c -> isspace c = false)
    /\ (forall c, last digest = Some c -> isspace c = false).
Proof.
  intros Himage r1 r2 Hsuccess.
  rewrite (get_image_digest_launched rt image Himage). fold r1 r2.
  destruct ((returncode r1 =? 0)%Z && truthy (strip (stdout r1))) eqn:Hfirst.
  - eexists. split; [reflexivity|]. split; [apply strip_head | apply strip_last].
  - destruct (Z.eqb_spec (returncode r2) 0) as [Hz|Hnz].
    + eexists. split; [reflexivity|].
      split; [apply strip_head | apply strip_last].
    + exfalso. destruct Hsuccess as [Hz | [Hz Hne]]; [congruence|].
      apply andb_false_iff in Hfirst as [Hrc | Hblank].
      * apply Z.eqb_neq in Hrc. congruence.
      * apply truthy_nonempty in Hne. congruence.
Qed.

Lemma get_image_digest_trimmed_witness :
  exists digest,
    get_image_digest rt_pulled (u "registry.example/app:1.0") = Ok digest
    /\ last digest = Some 100.
Proof.
  destruct (get_image_digest_trimmed rt_pulled (u "registry.example/app:1.0")
              eq_refl ltac:(left; vm_compute; reflexivity))
    as (digest & Hdigest & _ & _).
  exists digest. split; [exact Hdigest|].
  vm_compute in Hdigest. injection Hdigest as <-. vm_compute. reflexivity.
Defined.

(** X3: the resolver can return the empty string, and does so exactly when
    the second inspection succeeds with blank output after the first gave
    nothing usable; the sentinel is never empty. *)
Theorem get_image_digest_empty (rt : runtime) (image : str) :
  has_nul image = false ->
  let r1 := rt (repo_digest_cmd image) in
  let r2 := rt (image_id_cmd image) in
  get_image_digest rt image = Ok []
  <-> (returncode r1 <> 0%Z \/ strip (stdout r1) = [])
      /\ returncode r2 = 0%Z /\ strip (stdout r2) = [].
Proof.
  intros Himage r1 r2.
  rewrite (get_image_digest_launched rt image Himage). fold r1 r2.
  destruct (Z.eqb_spec (returncode r1) 0) as [Hz1|Hnz1];
    destruct (truthy (strip (stdout r1))) eqn:Hfirst;
    destruct (Z.eqb_spec (returncode r2) 0) as [Hz2|Hnz2]; cbn [andb];
    try (apply truthy_nonempty in Hfirst);
    try (assert (strip (stdout r1) = []) as Hblank
           by (destruct (strip (stdout r1)); [reflexivity | discriminate]));
    split;
    try (intros [= Heq]);
    try (intros (Hone & Htwo & Hthree));
    try discriminate; try congruence; try tauto;
    try (destruct Hone; congruence);
    try (split; [tauto | split; [assumption | congruence]]).
Qed.

Lemma get_image_digest_empty_witness :
  get_image_digest rt_blank (u "app:1.0") = Ok [].
Proof.
  apply (get_image_digest_empty rt_blank (u "app:1.0") eq_refl).
  vm_compute. split; [right; reflexivity|]. split; reflexivity.
Defined.

(** ** The digest collector *)

Lemma for_each_app {A S} (body : S -> A -> result S) (l1 l2 : list A) (s : S) :
  for_each body (l1 ++ l2) s = s' ← for_each body l1 s; for_each body l2 s'.
Proof.
  revert s. induction l1 as [|x l1 IH]; intros s; [reflexivity|].
  cbn [app for_each]. destruct (body s x) as [s1|e]; [|reflexivity].
  rewrite !bind_Ok. apply IH.
Qed.

(** The collector after a valid green agent and valid leading entries: the
    loop goes on from the dictionary these have built. *)
Lemma collect_image_digests_prefix (rt : runtime) (sc : Scenario)
    (ps1 rest : list table) :
  participants sc = Some (ps1 ++ rest) ->
  valid_scenario (mkScenario (green_agent sc) (Some ps1)) = true ->
  exists green,
    green_agent sc = Some green
    /\ collect_image_digests rt sc =
         for_each (collect_participant rt) rest
           (assign_all [] (writes rt green ps1)).
Proof.
  intros Hps Hvalid.
  destruct (collect_image_digests_valid rt _ Hvalid)
    as (green & Hgreen & Himage & Hprefix).
  cbn [green_agent participants from_option id] in Hgreen, Hprefix.
  exists green. split; [exact Hgreen|].
  unfold collect_image_digests in *. rewrite Hps. cbn [from_option id].
  cbn [green_agent participants from_option id] in Hprefix.
  destruct (subscript (green_agent sc) (u "green_agent")) as [g|];
    [rewrite bind_Ok in * | discriminate].
  destruct (getitem g (u "image")) as [green_image|];
    [rewrite bind_Ok in * | discriminate].
  destruct (get_image_digest rt green_image) as [d|];
    [rewrite bind_Ok in * | discriminate].
  rewrite for_each_app, Hprefix, bind_Ok. reflexivity.
Qed.

(** X4: the green agent is required.  Without a [green_agent] table the
    collector raises [KeyError('green_agent')], and with a table that has no
    [image] it raises [KeyError('image')], whatever the participants are. *)
Theorem collect_image_digests_green_required (rt : runtime) (sc : Scenario) :
  (green_agent sc = None ->
   collect_image_digests rt sc = Raise (KeyError (u "green_agent")))
  /\ (forall green,
        green_agent sc = Some green ->
        green !! u "image" = None ->
        collect_image_digests rt sc = Raise (KeyError (u "image"))).
Proof.
  split.
  - intros Hgreen. unfold collect_image_digests. rewrite Hgreen. reflexivity.
  - intros green Hgreen Himage. unfold collect_image_digests, getitem.
    rewrite Hgreen. cbn [subscript]. rewrite bind_Ok, Himage. reflexivity.
Qed.

Lemma collect_image_digests_green_required_witness :
  collect_image_digests rt_local sc_no_green
    = Raise (KeyError (u "green_agent"))
  /\ collect_image_digests rt_local sc_green_no_image
     = Raise (KeyError (u "image")).
Proof.
  split.
  - apply (proj1 (collect_image_digests_green_required rt_local sc_no_green)).
    reflexivity.
  - apply (proj2 (collect_image_digests_green_required rt_local
                    sc_green_no_image) {[ u "name" := u "green" ]});
      vm_compute; reflexivity.
Defined.

(** X5: the name of an entry is read before its image.  An entry without a
    [name], after a valid green agent and valid entries, makes the collector
    raise [KeyError('name')], whether its image is present, empty or
    missing. *)
Theorem collect_image_digests_missing_name (rt : runtime) (sc : Scenario)
    (ps1 : list table) (p : table) (ps2 : list table) :
  participants sc = Some (ps1 ++ p :: ps2) ->
  valid_scenario (mkScenario (green_agent sc) (Some ps1)) = true ->
  p !! u "name" = None ->
  collect_image_digests rt sc = Raise (KeyError (u "name")).
Proof.
  intros Hps Hvalid Hname.
  destruct (collect_image_digests_prefix rt sc ps1 (p :: ps2) Hps Hvalid)
    as (green & _ & ->).
  cbn [for_each]. unfold collect_participant, getitem. rewrite Hname.
  reflexivity.
Qed.

Lemma collect_image_digests_missing_name_witness :
  collect_image_digests rt_local sc_no_name = Raise (KeyError (u "name")).
Proof.
  apply (collect_image_digests_missing_name rt_local sc_no_name
           [participant "judge" "local-build:latest"]
           {[ u "image" := u "old:1" ]} []);
    vm_compute; reflexivity.
Defined.

(** X6: one image reference that cannot be passed to the runtime aborts the
    collection.  An entry whose image has an embedded NUL, after a valid
    green agent and valid entries, makes the collector raise the resolver's
    [ValueError]; no mapping is returned. *)
Theorem collect_image_digests_nul_aborts (rt : runtime) (sc : Scenario)
    (ps1 : list table) (p : table) (ps2 : list table) (image : str) :
  participants sc = Some (ps1 ++ p :: ps2) ->
  valid_scenario (mkScenario (green_agent sc) (Some ps1)) = true ->
  is_Some (p !! u "name") ->
  p !! u "image" = Some image ->
  has_nul image = true ->
  collect_image_digests rt sc = Raise (ValueError (u "embedded null byte")).
Proof.
  intros Hps Hvalid [name Hname] Himage Hnul.
  destruct (collect_image_digests_prefix rt sc ps1 (p :: ps2) Hps Hvalid)
    as (green & _ & ->).
  cbn [for_each]. unfold collect_participant, getitem.
  rewrite Hname, bind_Ok, Himage, bind_Ok.
  assert (truthy image = true) as ->.
  { destruct image; [discriminate | reflexivity]. }
  rewrite (get_image_digest_nul rt image Hnul). reflexivity.
Qed.

Lemma collect_image_digests_nul_aborts_witness :
  collect_image_digests rt_local sc_nul_image
  = Raise (ValueError (u "embedded null byte")).
Proof.
  apply (collect_image_digests_nul_aborts rt_local sc_nul_image
           [participant "judge" "local-build:latest"]
           {[ u "name" := u "bad"; u "image" := nul_image ]} [] nul_image);
    try (vm_compute; reflexivity).
  vm_compute. eexists. reflexivity.
Defined.

(** X7: an entry with a name and an empty image is a no-operation: the
    collector returns (or raises) the same with the entry and without it,
    for every scenario and runtime. *)
Theorem collect_image_digests_skip (rt : runtime) (sc : Scenario)
    (ps1 : list table) (p : table) (ps2 : list table) :
  participants sc = Some (ps1 ++ p :: ps2) ->
  is_Some (p !! u "name") ->
  p !! u "image" = Some [] ->
  collect_image_digests rt sc
  = collect_image_digests rt (mkScenario (green_agent sc) (Some (ps1 ++ ps2))).
Proof.
  intros Hps [name Hname] Himage. unfold collect_image_digests.
  rewrite Hps. cbn [green_agent participants from_option id].
  destruct (subscript (green_agent sc) (u "green_agent")) as [green|];
    [rewrite !bind_Ok | reflexivity].
  destruct (getitem green (u "image")) as [green_image|];
    [rewrite !bind_Ok | reflexivity].
  destruct (get_image_digest rt green_image) as [d|];
    [rewrite !bind_Ok | reflexivity].
  rewrite !for_each_app.
  destruct (for_each (collect_participant rt) ps1
              (setitem [] (u "green_agent") d)) as [digests|];
    [rewrite !bind_Ok | reflexivity].
  assert (collect_participant rt digests p = Ok digests) as Hskip.
  { unfold collect_participant, getitem.
    rewrite Hname, bind_Ok, Himage, bind_Ok. reflexivity. }
  cbn [for_each]. rewrite Hskip, bind_Ok. reflexivity.
Qed.

Lemma collect_image_digests_skip_witness :
  collect_image_digests rt_local sc_two_judges
  = collect_image_digests rt_local
      (mkScenario (Some green_table)
         (Some [participant "judge" "old:1";
                participant "judge" "local-build:latest"])).
Proof.
  apply (collect_image_digests_skip rt_local sc_two_judges
           [participant "judge" "old:1"] (participant "idle" "")
           [participant "judge" "local-build:latest"]).
  - reflexivity.
  - vm_compute. eexists. reflexivity.
  - vm_compute. reflexivity.
Defined.

Lemma first_occurrences_length (l : list str) :
  (length (first_occurrences l) <= length l)%nat.
Proof.
  induction l as [|x l IH]; cbn [first_occurrences length]; [lia|].
  pose proof (length_filter (fun y => y <> x) (first_occurrences l)). lia.
Qed.

(** X8: the size of the mapping.  On a valid scenario the collector returns
    at least one entry and at most one more than there are participants
    with a non-empty image, and exactly that many when [green_agent] and
    their names are all distinct. *)
Theorem collect_image_digests_size (rt : runtime) (sc : Scenario) :
  valid_scenario sc = true ->
  let named := with_image (default [] (participants sc)) in
  exists digests,
    collect_image_digests rt sc = Ok digests
    /\ (1 <= length digests <= 1 + length named)%nat
    /\ (NoDup (u "green_agent" :: map name_of named) ->
        length digests = (1 + length named)%nat).
Proof.
  intros Hvalid named.
  destruct (collect_image_digests_valid rt sc Hvalid)
    as (green & _ & _ & Hcollect).
  eexists. split; [exact Hcollect|].
  pose proof (keys_assign_all_nil
                (writes rt green (default [] (participants sc)))) as Hkeys.
  rewrite map_fst_writes in Hkeys. fold named in Hkeys.
  apply (f_equal (@length str)) in Hkeys. unfold keys in Hkeys.
  rewrite length_map in Hkeys. rewrite Hkeys. split.
  - pose proof (first_occurrences_length
                  (u "green_agent" :: map name_of named)) as Hle.
    cbn [first_occurrences length] in *. rewrite length_map in Hle. lia.
  - intros Hnodup. rewrite (first_occurrences_NoDup _ Hnodup).
    cbn [length]. rewrite length_map. reflexivity.
Qed.

Lemma collect_image_digests_size_witness :
  exists digests,
    collect_image_digests rt_local sc_two_judges = Ok digests
    /\ (1 <= length digests <= 3)%nat.
Proof.
  destruct (collect_image_digests_size rt_local sc_two_judges
              ltac:(vm_compute; reflexivity))
    as (digests & Hcollect & Hsize & _).
  exists digests. split; [exact Hcollect|]. exact Hsize.
Defined.

Lemma get_assign_all_elem {V} (d : dict V) (ws : list (str * V)) (k : str)
    (v : V) :
  get (assign_all d ws) k = Some v -> (k, v) ∈ ws \/ get d k = Some v.
Proof.
  revert d. induction ws as [|[k0 v0] ws IH]; intros d; [right; assumption|].
  rewrite assign_all_cons. intros [Hin | Hget]%IH.
  - left. apply list_elem_of_further, Hin.
  - rewrite get_setitem in Hget. case_decide as Hk.
    + injection Hget as <-. subst. left. apply list_elem_of_here.
    + right. exact Hget.
Qed.

(** X9: every recorded digest comes from an image of the scenario.  On a
    valid scenario each entry of the mapping is [green_agent] with the
    digest resolved for the green agent's image, or the name of a
    participant with the digest resolved for that participant's non-empty
    image. *)
Theorem collect_image_digests_values (rt : runtime) (sc : Scenario) :
  valid_scenario sc = true ->
  exists digests,
    collect_image_digests rt sc = Ok digests
    /\ forall k v,
         get digests k = Some v ->
         (k = u "green_agent"
          /\ exists green,
               green_agent sc = Some green
               /\ get_image_digest rt (image_of green) = Ok v)
         \/ (exists p,
               p ∈ default [] (participants sc)
               /\ name_of p = k
               /\ image_of p <> []
               /\ get_image_digest rt (image_of p) = Ok v).
Proof.
  intros Hvalid.
  destruct (collect_image_digests_valid rt sc Hvalid)
    as (green & Hgreen & _ & Hcollect).
  eexists. split; [exact Hcollect|].
  unfold valid_scenario in Hvalid. rewrite Hgreen in Hvalid.
  apply andb_prop in Hvalid as [Hgvalid Hps].
  intros k v [Hin | Hget]%get_assign_all_elem; [|discriminate].
  unfold writes in Hin. apply elem_of_cons in Hin as [Heq | Hin].
  - injection Heq as -> ->. left. split; [reflexivity|].
    exists green. split; [exact Hgreen|].
    apply get_image_digest_resolved, (valid_table_image green Hgvalid).
  - right. apply list_elem_of_In, in_map_iff in Hin as (p & Heq & Hp).
    injection Heq as <- <-.
    apply list_elem_of_In, elem_of_with_image in Hp as [Himage Hp].
    exists p. split; [exact Hp|]. split; [reflexivity|].
    split; [exact Himage|].
    apply get_image_digest_resolved.
    rewrite forallb_forall in Hps.
    apply list_elem_of_In in Hp.
    exact (proj2 (proj2 (valid_participant_fields p (Hps p Hp)))).
Qed.

Lemma collect_image_digests_values_witness :
  exists digests,
    collect_image_digests rt_local sc_judge_idle = Ok digests
    /\ get digests (u "judge") = Some (u "sha256:deadbeef").
Proof.
  destruct (collect_image_digests_values rt_local sc_judge_idle
              ltac:(vm_compute; reflexivity))
    as (digests & Hcollect & _).
  exists digests. split; [exact Hcollect|].
  vm_compute in Hcollect. injection Hcollect as <-. vm_compute. reflexivity.
Defined.

(** ** The provenance writer *)

(** The world after a write that the operating system lets through. *)
Lemma write_provenance_run (output_path : str) (image_digests : dict str)
    (w : world) :
  fs w !! output_path <> Some Directory ->
  refused w output_path = None ->
  write_provenance output_path image_digests w
  = (mkWorld
       (<[output_path :=
            File (dumps 0 (provenance image_digests (clock w)))]> (fs w))
       (sys_stdout w) (sys_stderr w) (clock w) (refused w),
     Ok tt).
Proof.
  intros Hdir Hrefused.
  unfold write_provenance, mbind, prog_mbind, prog_bind, now_utc, write_text.
  rewrite Hrefused.
  destruct (fs w !! output_path) as [[content|]|]; congruence.
Qed.

(** X11: a successful write replaces the destination and nothing else.
    Whatever the destination held before, reading it afterwards returns the
    new document; every other path, both output streams and the clock are as
    they were. *)
Theorem write_provenance_overwrites (output_path : str)
    (image_digests : dict str) (w : world) :
  fs w !! output_path <> Some Directory ->
  refused w output_path = None ->
  let (w', outcome) := write_provenance output_path image_digests w in
  outcome = Ok tt
  /\ read_text output_path w'
     = (w', Ok (dumps 0 (provenance image_digests (clock w))))
  /\ (forall path, path <> output_path -> fs w' !! path = fs w !! path)
  /\ sys_stdout w' = sys_stdout w
  /\ sys_stderr w' = sys_stderr w
  /\ clock w' = clock w.
Proof.
  intros Hdir Hrefused.
  rewrite (write_provenance_run _ _ _ Hdir Hrefused).
  split; [reflexivity|]. split.
  - unfold read_text. cbn [fs]. rewrite lookup_insert_eq. reflexivity.
  - split; [|repeat split].
    intros path Hpath. cbn [fs]. apply lookup_insert_ne. congruence.
Qed.

Lemma write_provenance_overwrites_witness :
  let (w', outcome) :=
    write_provenance (u "provenance.json") sample_digests sample_world in
  outcome = Ok tt
  /\ fs w' !! u "scenario.toml" = Some (File sample_toml).
Proof.
  pose proof (write_provenance_overwrites (u "provenance.json")
                sample_digests sample_world
                ltac:(vm_compute; discriminate) eq_refl) as Hwrite.
  destruct (write_provenance (u "provenance.json") sample_digests sample_world)
    as [w' outcome].
  destruct Hwrite as (Hok & _ & Hframe & _).
  split; [exact Hok|].
  rewrite (Hframe (u "scenario.toml")) by (vm_compute; discriminate).
  vm_compute. reflexivity.
Defined.

(** *** The document is plain ASCII *)

Lemma hexdigit_printable (d : N) : d < 16 -> is_printable (hexdigit d) = true.
Proof.
  intros Hd.
  apply (forallb_below (fun d => is_printable (hexdigit d)) 16);
    [vm_compute; reflexivity | exact Hd].
Qed.

Lemma hex4_printable (n : N) : forallb is_printable (hex4 n) = true.
Proof.
  unfold hex4. cbn [forallb].
  rewrite !hexdigit_printable by (apply N.mod_lt; lia). reflexivity.
Qed.

Lemma escape_char_printable (c : N) :
  forallb is_printable (escape_char c) = true.
Proof.
  unfold escape_char.
  repeat match goal with
         | |- context [if ?b then _ else _] => destruct b eqn:?
         end;
    try reflexivity.
  - cbn [forallb]. unfold is_printable.
    match goal with H : (32 <=? c) && (c <=? 126) = true |- _ => rewrite H end.
    rewrite orb_true_r. reflexivity.
  - change (u "\u" ++ hex4 c) with (92 :: 117 :: hex4 c).
    cbn [forallb]. rewrite hex4_printable. reflexivity.
  - cbv zeta. rewrite !forallb_app, !hex4_printable. reflexivity.
Qed.

Lemma literal_then_printable (s rest : str) :
  forallb is_printable rest = true ->
  forallb is_printable (literal_then s rest) = true.
Proof.
  intros Hrest. unfold literal_then. rewrite forallb_app. cbn [forallb].
  rewrite Hrest. apply andb_true_iff. split; [|reflexivity].
  induction s as [|c s IH]; [reflexivity|].
  cbn [flat_map]. rewrite forallb_app, escape_char_printable, IH. reflexivity.
Qed.

Lemma items_then_printable (d : dict str) (rest : str) :
  forallb is_printable rest = true ->
  forallb is_printable (items_then d rest) = true.
Proof.
  intros Hrest. induction d as [|[k v] d IH]; [exact Hrest|].
  cbn [items_then forallb].
  rewrite literal_then_printable; [reflexivity|].
  cbn [forallb]. rewrite literal_then_printable; [reflexivity | exact IH].
Qed.

Lemma digests_then_printable (d : dict str) (rest : str) :
  forallb is_printable rest = true ->
  forallb is_printable (digests_then d rest) = true.
Proof.
  intros Hrest. destruct d as [|[k v] d]; cbn [digests_then forallb].
  - rewrite Hrest. reflexivity.
  - rewrite literal_then_printable; [reflexivity|].
    cbn [forallb]. rewrite literal_then_printable; [reflexivity|].
    apply items_then_printable. cbn [forallb]. rewrite Hrest. reflexivity.
Qed.

(** X12: the document is plain ASCII.  Whatever code points the names and
    digests contain, every character [write_provenance] writes is a line
    feed or a printable ASCII character. *)
Theorem dumps_provenance_printable (image_digests : dict str)
    (now : datetime) :
  Forall (fun c => c = 10 \/ (32 <= c /\ c <= 126))
    (dumps 0 (provenance image_digests now)).
Proof.
  apply Forall_forall. intros c Hc.
  assert (forallb is_printable (dumps 0 (provenance image_digests now)) = true)
    as Hall.
  { rewrite dumps_provenance. cbn [forallb].
    rewrite literal_then_printable; [reflexivity|]. cbn [forallb].
    apply digests_then_printable. cbn [forallb].
    rewrite literal_then_printable; [reflexivity|]. cbn [forallb].
    rewrite literal_then_printable; reflexivity. }
  rewrite forallb_forall in Hall. apply list_elem_of_In in Hc.
  specialize (Hall c Hc). unfold is_printable in Hall.
  apply orb_true_iff in Hall as [H10%N.eqb_eq | [H32%N.leb_le H126%N.leb_le]%andb_true_iff];
    [left; exact H10 | right; split; assumption].
Qed.

(** *** The timestamp can be read back *)

Lemma digits_value_zero_padded_2 (n : N) :
  n <= 99 -> digits_value (zero_padded 2 n) = n.
Proof.
  intros Hn. apply N.eqb_eq.
  apply (forallb_below (fun n => digits_value (zero_padded 2 n) =? n) 100);
    [vm_compute; reflexivity | lia].
Qed.

Lemma digits_value_zero_padded_4 (n : N) :
  n <= 9999 -> digits_value (zero_padded 4 n) = n.
Proof.
  intros Hn. apply N.eqb_eq.
  apply (forallb_below (fun n => digits_value (zero_padded 4 n) =? n) 10000);
    [vm_compute; reflexivity | lia].
Qed.

Lemma two_digits_length (s : str) : two_digits s = true -> length s = 2%nat.
Proof. destruct s as [|a [|b [|c s]]]; cbn; congruence. Qed.

Lemma four_digits_length (s : str) : four_digits s = true -> length s = 4%nat.
Proof. destruct s as [|a [|b [|c [|d [|e s]]]]]; cbn; congruence. Qed.

Lemma two_digits_no_plus (s : str) :
  two_digits s = true -> Forall (fun c => c <> 43) s.
Proof.
  destruct s as [|a [|b [|c s]]]; cbn; try discriminate.
  intros [Ha Hb]%andb_true_iff.
  repeat constructor; apply is_digit_not_plus; assumption.
Qed.

Lemma four_digits_no_plus (s : str) :
  four_digits s = true -> Forall (fun c => c <> 43) s.
Proof.
  destruct s as [|a [|b [|c [|d [|e s]]]]]; cbn; try discriminate.
  intros [[[Ha Hb]%andb_true_iff Hc]%andb_true_iff Hd]%andb_true_iff.
  repeat constructor; apply is_digit_not_plus; assumption.
Qed.

(** The timestamp of a valid instant, field by field. *)
Lemma timestamp_fields (now : datetime) :
  valid_datetime now = true ->
  timestamp now =
    zero_padded 4 (year now) ++ u "-" ++ zero_padded 2 (month now) ++ u "-"
    ++ zero_padded 2 (day now) ++ u "T" ++ zero_padded 2 (hour now) ++ u ":"
    ++ zero_padded 2 (minute now) ++ u ":" ++ zero_padded 2 (second now)
    ++ u "Z".
Proof.
  unfold valid_datetime. rewrite !andb_true_iff, !N.leb_le.
  intros (((((((((_ & Hyear) & _) & Hmonth) & _) & Hday) & Hhour) & Hminute)
            & Hsecond) & _).
  unfold timestamp, isoformat_seconds.
  pose proof (four_digits_no_plus _ (zero_padded_4 (year now) Hyear)) as Hy.
  pose proof (two_digits_no_plus _ (zero_padded_2 (month now) ltac:(lia)))
    as Hmo.
  pose proof (two_digits_no_plus _ (zero_padded_2 (day now) ltac:(lia))) as Hd.
  pose proof (two_digits_no_plus _ (zero_padded_2 (hour now) ltac:(lia)))
    as Hh.
  pose proof (two_digits_no_plus _ (zero_padded_2 (minute now) ltac:(lia)))
    as Hmi.
  pose proof (two_digits_no_plus _ (zero_padded_2 (second now) ltac:(lia)))
    as Hs.
  revert Hy Hmo Hd Hh Hmi Hs.
  generalize (zero_padded 4 (year now)) (zero_padded 2 (month now))
    (zero_padded 2 (day now)) (zero_padded 2 (hour now))
    (zero_padded 2 (minute now)) (zero_padded 2 (second now)).
  intros y mo d h mi s Hy Hmo Hd Hh Hmi Hs.
  rewrite !(app_assoc _ _ (u "+00:00")), replace_utc_offset.
  - rewrite <- !app_assoc. reflexivity.
  - repeat (apply Forall_app; split); try assumption;
      (apply Forall_cons; split; [vm_compute; discriminate | apply Forall_nil_2]).
Qed.

(** X13: the timestamp determines the instant to the second.  Two valid
    instants with the same timestamp agree on year, month, day, hour, minute
    and second. *)
Theorem timestamp_inj (now now' : datetime) :
  valid_datetime now = true ->
  valid_datetime now' = true ->
  timestamp now = timestamp now' ->
  year now = year now' /\ month now = month now' /\ day now = day now'
  /\ hour now = hour now' /\ minute now = minute now'
  /\ second now = second now'.
Proof.
  intros Hvalid Hvalid' Heq.
  rewrite (timestamp_fields now Hvalid), (timestamp_fields now' Hvalid') in Heq.
  unfold valid_datetime in Hvalid, Hvalid'.
  rewrite !andb_true_iff, !N.leb_le in Hvalid, Hvalid'.
  destruct Hvalid as (((((((((_ & Hy) & _) & Hmo) & _) & Hd) & Hh) & Hmi)
                        & Hs) & _).
  destruct Hvalid' as (((((((((_ & Hy') & _) & Hmo') & _) & Hd') & Hh') & Hmi')
                         & Hs') & _).
  assert (forall n n', n <= 99 -> n' <= 99 ->
            length (zero_padded 2 n) = length (zero_padded 2 n')) as Hlen2.
  { intros n n' Hn Hn'.
    rewrite !two_digits_length by (apply zero_padded_2; assumption).
    reflexivity. }
  assert (forall n n', n <= 99 -> n' <= 99 ->
            zero_padded 2 n = zero_padded 2 n' -> n = n') as Hinj2.
  { intros n n' Hn Hn' Hpad.
    rewrite <- (digits_value_zero_padded_2 n Hn),
      <- (digits_value_zero_padded_2 n' Hn'), Hpad. reflexivity. }
  apply app_inj_1 in Heq as [Hyear Heq];
    [|rewrite !four_digits_length by (apply zero_padded_4; assumption);
      reflexivity].
  injection Heq as Heq.
  apply app_inj_1 in Heq as [Hmonth Heq]; [|apply Hlen2; lia].
  injection Heq as Heq.
  apply app_inj_1 in Heq as [Hday Heq]; [|apply Hlen2; lia].
  injection Heq as Heq.
  apply app_inj_1 in Heq as [Hhour Heq]; [|apply Hlen2; lia].
  injection Heq as Heq.
  apply app_inj_1 in Heq as [Hminute Heq]; [|apply Hlen2; lia].
  injection Heq as Heq.
  apply app_inj_1 in Heq as [Hsecond _]; [|apply Hlen2; lia].
  split.
  { rewrite <- (digits_value_zero_padded_4 (year now) Hy),
      <- (digits_value_zero_padded_4 (year now') Hy'), Hyear. reflexivity. }
  repeat split; apply Hinj2; solve [lia | assumption].
Qed.

Lemma timestamp_inj_witness :
  second sample_instant = second (mkDatetime 2024 3 7 9 5 0 0).
Proof.
  apply (timestamp_inj sample_instant (mkDatetime 2024 3 7 9 5 0 0));
    vm_compute; reflexivity.
Defined.

(** ** main and the script *)

(** The world a successful run leaves. *)
Lemma main_run (tomli_loads : str -> result Scenario) (rt : runtime)
    (args : Namespace) (w : world) (content : str) (sc : Scenario)
    (digests : dict str) :
  fs w !! scenario args = Some (File content) ->
  tomli_loads content = Ok sc ->
  collect_image_digests rt sc = Ok digests ->
  fs w !! output args <> Some Directory ->
  refused w (output args) = None ->
  main tomli_loads rt args w
  = (mkWorld
       (<[output args :=
            File (dumps 0 (provenance digests (clock w)))]> (fs w))
       (sys_stdout w
        ++ (u "Recorded provenance to " ++ output args ++ u " ("
            ++ decimal (N.of_nat (length digests)) ++ u " images)") ++ [10])
       (sys_stderr w) (clock w) (refused w),
     Ok tt).
Proof.
  intros Hfile Hloads Hcollect Hdir Hrefused.
  main_found Hfile.
  rewrite Hloads; cbv beta iota zeta. rewrite Hcollect; cbv beta iota zeta.
  rewrite (write_provenance_run _ _ _ Hdir Hrefused). reflexivity.
Qed.

(** X14: a successful run, end to end.  When the scenario file exists and
    parses, the collector returns a mapping (of strings of Unicode scalar
    values), the clock is valid and the destination can be written, [main]
    ends normally with status 0, prints the one line
    [Recorded provenance to <output> (<n> images)] with [n] the number of
    entries of the mapping, and leaves at the destination a document that
    parses back to the provenance record of that mapping. *)
Theorem main_success (tomli_loads : str -> result Scenario) (rt : runtime)
    (args : Namespace) (w : world) (content : str) (sc : Scenario)
    (digests : dict str) :
  fs w !! scenario args = Some (File content) ->
  tomli_loads content = Ok sc ->
  collect_image_digests rt sc = Ok digests ->
  scalar_digests digests = true ->
  valid_datetime (clock w) = true ->
  fs w !! output args <> Some Directory ->
  refused w (output args) = None ->
  let (w', outcome) := main tomli_loads rt args w in
  outcome = Ok tt
  /\ exit_status outcome = 0%Z
  /\ sys_stdout w' =
       sys_stdout w ++ u "Recorded provenance to " ++ output args ++ u " ("
       ++ decimal (N.of_nat (length digests)) ++ u " images)" ++ [10]
  /\ sys_stderr w' = sys_stderr w
  /\ exists text,
       fs w' !! output args = Some (File text)
       /\ loads text = Some (provenance digests (clock w)).
Proof.
  intros Hfile Hloads Hcollect Hscalar Hvalid Hdir Hrefused.
  rewrite (main_run _ _ _ _ _ _ _ Hfile Hloads Hcollect Hdir Hrefused).
  split; [reflexivity|]. split; [reflexivity|]. split.
  { cbn [sys_stdout]. rewrite <- !app_assoc. reflexivity. }
  split; [reflexivity|].
  eexists. split; [cbn [fs]; apply lookup_insert_eq|].
  apply loads_dumps_provenance; [exact Hvalid | | exact Hscalar].
  exact (collect_image_digests_NoDup rt sc digests Hcollect).
Qed.

Lemma main_success_witness :
  let (w', outcome) := main sample_loads rt_pulled sample_args sample_world in
  outcome = Ok tt
  /\ sys_stdout w' = u "Recorded provenance to provenance.json (1 images)" ++ [10].
Proof.
  pose proof (main_success sample_loads rt_pulled sample_args sample_world
                sample_toml (mkScenario (Some green_table) None)
                [(u "green_agent", u "registry.example/app@sha256:abcd")]
                ltac:(vm_compute; reflexivity) ltac:(vm_compute; reflexivity)
                ltac:(vm_compute; reflexivity) ltac:(vm_compute; reflexivity)
                ltac:(vm_compute; reflexivity) ltac:(vm_compute; discriminate)
                eq_refl) as Hmain.
  destruct (main sample_loads rt_pulled sample_args sample_world)
    as [w' outcome].
  destruct Hmain as (Hok & _ & Hout & _).
  split; [exact Hok|]. rewrite Hout. vm_compute. reflexivity.
Defined.

(** X15: a run that fails before the write leaves every file as it was.
    (1) When neither [tomli] nor [tomllib] can be imported, the script
    prints [Error: tomli required. Install with: pip install tomli] on
    standard output and raises [SystemExit(1)].  (2) When the scenario file
    exists and the parser ([tomli] when it can be imported, else [tomllib])
    raises on its content, or the collector raises on the parsed scenario,
    that exception leaves the script uncaught, nothing is printed on
    standard output and no file is created or changed. *)
Theorem script_failure_writes_nothing
    (tomli tomllib : option (str -> result Scenario)) (rt : runtime)
    (args : Namespace) (w : world) :
  (tomli = None -> tomllib = None ->
   let (w', outcome) := script tomli tomllib rt args w in
   outcome = Raise (SystemExit 1)
   /\ fs w' = fs w
   /\ sys_stdout w' =
        sys_stdout w
        ++ u "Error: tomli required. Install with: pip install tomli" ++ [10])
  /\ (forall tomli_loads content e,
        chosen tomli tomllib tomli_loads ->
        fs w !! scenario args = Some (File content) ->
        (tomli_loads content = Raise e
         \/ exists sc,
              tomli_loads content = Ok sc
              /\ collect_image_digests rt sc = Raise e) ->
        let (w', outcome) := script tomli tomllib rt args w in
        outcome = Raise e /\ fs w' = fs w /\ sys_stdout w' = sys_stdout w).
Proof.
  split.
  - intros -> ->. unfold script, import_tomli. cbn.
    repeat split.
  - intros tomli_loads content e Hchosen Hfile Hfails.
    assert (script tomli tomllib rt args w = main tomli_loads rt args w) as ->.
    { destruct Hchosen as [-> | [-> ->]]; reflexivity. }
    main_found Hfile.
    destruct Hfails as [Hloads | (sc & Hloads & Hcollect)].
    + rewrite Hloads; cbv beta iota zeta. repeat split.
    + rewrite Hloads; cbv beta iota zeta. rewrite Hcollect; cbv beta iota zeta.
      repeat split.
Qed.

Lemma script_failure_writes_nothing_witness :
  let (w', outcome) :=
    script None (Some sample_loads) rt_local sample_args broken_world in
  outcome = Raise (TOMLDecodeError (u "Invalid statement"))
  /\ fs w' = fs broken_world.
Proof.
  pose proof (proj2 (script_failure_writes_nothing None (Some sample_loads)
                       rt_local sample_args broken_world)
                sample_loads (u "green_agent = ")
                (TOMLDecodeError (u "Invalid statement"))
                ltac:(right; split; reflexivity)
                ltac:(vm_compute; reflexivity)
                ltac:(left; vm_compute; reflexivity)) as Hrun.
  destruct (script None (Some sample_loads) rt_local sample_args broken_world)
    as [w' outcome].
  destruct Hrun as (Houtcome & Hfs & _). split; assumption.
Defined.
